(** * CAD-MCP: the natural-language command interpreter (src/nlp_processor.py)

    A shallow embedding of [NLPProcessor]: Python strings are sequences of
    Unicode code points, the keyword tables are association lists in the
    order the dict literals are written (dicts iterate in insertion order),
    regular expressions are run by a backtracking matcher with the priorities
    of Python's [re], and the descriptor dictionaries the methods return are
    association lists from keys to values.  A method that can raise returns
    in the [result] monad. *)

From Stdlib Require Import List String Ascii NArith ZArith QArith Bool Lia.
From Stdlib.Strings Require Import Byte.
Import ListNotations.

Close Scope Q_scope.

Set Implicit Arguments.

(** ** Python strings *)

Module Str.

(** A Python [str]: its code points, in order. *)
Definition str := list N.

#[local] Open Scope N_scope.

(** Source strings are written as UTF-8 literals and decoded once. *)
Fixpoint utf8_decode (bs : list N) : str :=
  match bs with
  | [] => []
  | b :: r =>
      if b <? 128 then b :: utf8_decode r
      else if b <? 224 then
        match r with
        | b1 :: r1 => ((b - 192) * 64 + (b1 - 128)) :: utf8_decode r1
        | [] => []
        end
      else if b <? 240 then
        match r with
        | b1 :: b2 :: r2 =>
            ((b - 224) * 4096 + (b1 - 128) * 64 + (b2 - 128)) :: utf8_decode r2
        | _ => []
        end
      else
        match r with
        | b1 :: b2 :: b3 :: r3 =>
            ((b - 240) * 262144 + (b1 - 128) * 4096 + (b2 - 128) * 64 + (b3 - 128))
              :: utf8_decode r3
        | _ => []
        end
  end.

Definition u (s : string) : str :=
  utf8_decode (map Byte.to_N (list_byte_of_string s)).

Fixpoint eqb (a b : str) : bool :=
  match a, b with
  | [], [] => true
  | x :: a', y :: b' => (x =? y) && eqb a' b'
  | _, _ => false
  end.

Fixpoint startswith (p s : str) : bool :=
  match p, s with
  | [], _ => true
  | x :: p', y :: s' => (x =? y) && startswith p' s'
  | _ :: _, [] => false
  end.

(** [p in s] *)
Fixpoint contains (p s : str) : bool :=
  startswith p s ||
  match s with
  | [] => false
  | _ :: s' => contains p s'
  end.

(** [s[a:b]] for [0 <= a <= b]. *)
Definition slice (s : str) (a b : nat) : str := firstn (b - a) (skipn a s).

End Str.

Import Str.

(** ** The Unicode database

    [str.lower], [str.upper], [str.isspace] and the categories behind the
    [re] escapes [\d], [\s], [\w] come from the interpreter's Unicode tables,
    which are not part of the repository; the embedding takes them as an
    interface.  [re_ieq c x] says that the input code point [x] matches the
    cased pattern literal [c] under [re.IGNORECASE]; a literal that is not
    cased is compared exactly, flag or no flag. *)

Class Unicode := {
  isspace : N -> bool;
  isdecimal : N -> bool;
  digit_value : N -> N;
  isalnum : N -> bool;
  lower : str -> str;
  upper : str -> str;
  iscased : N -> bool;
  re_ieq : N -> N -> bool;
  (** The signs and the point are neither decimal digits nor cased. *)
  signs_not_decimal : isdecimal 43 || isdecimal 45 || isdecimal 46 = false;
  signs_not_cased : iscased 45 || iscased 46 = false
}.

Module Basic.

#[local] Open Scope N_scope.

Definition between (lo hi x : N) : bool := (lo <=? x) && (x <=? hi).

(** The code points for which [str.isspace] holds. *)
Definition isspace (x : N) : bool :=
  between 9 13 x || between 28 32 x || (x =? 133) || (x =? 160) || (x =? 5760)
  || between 8192 8202 x || (x =? 8232) || (x =? 8233) || (x =? 8239)
  || (x =? 8287) || (x =? 12288).

Definition isdecimal (x : N) : bool := between 48 57 x.

Definition digit_value (x : N) : N := x - 48.

Definition isalpha (x : N) : bool :=
  between 65 90 x || between 97 122 x || between 19968 40959 x.

Definition isalnum (x : N) : bool := isalpha x || isdecimal x.

Definition lower1 (x : N) : N := if between 65 90 x then x + 32 else x.

Definition upper1 (x : N) : N := if between 97 122 x then x - 32 else x.

(** An instance that agrees with CPython on ASCII, on the white space of
    every script and on the CJK Unified Ideographs U+4E00..U+9FFF (which
    are caseless letters): the alphabet of the keyword tables and of the
    commands evaluated below.  Cased letters and digits of other scripts
    are outside it. *)
Definition unicode : Unicode :=
  Build_Unicode isspace isdecimal digit_value isalnum
    (map lower1) (map upper1) (fun x => between 65 90 x || between 97 122 x)
    (fun c x => lower1 c =? lower1 x) eq_refl eq_refl.

End Basic.

(** ** Regular expressions

    The fragment of [re] syntax the patterns of the source use.  Every
    repetition in them ranges over a single-character class, so [Rep] takes
    a [chr]; [Rep false c] is the greedy [c*], [Rep true c] the lazy [c*?],
    [Opt a] the greedy [a?], [Group n a] the [n]-th capturing group and a
    non-capturing [(?:...)] is its body. *)

Module Re.

Inductive item :=
| Chr (c : N)
| Range (lo hi : N)
| Digit
| Space
| Word.

Inductive chr :=
| Lit (c : N)
| Dot
| Cls (neg : bool) (items : list item).

Inductive regex :=
| Eps
| One (c : chr)
| Rep (lazy : bool) (c : chr)
| Cat (a b : regex)
| Alt (a b : regex)
| Opt (a : regex)
| Group (n : nat) (a : regex).

(** The state of a match attempt: the position in the text, the text that
    is left there, and the spans of the groups closed so far. *)
Record mstate := MState {
  pos : nat;
  rest : str;
  caps : list (nat * (nat * nat))
}.

(** A match object: [m.start()], [m.end()] and the group spans. *)
Record rmatch := RMatch {
  m_start : nat;
  m_end : nat;
  m_caps : list (nat * (nat * nat))
}.

Fixpoint assoc (n : nat) (l : list (nat * (nat * nat))) : option (nat * nat) :=
  match l with
  | [] => None
  | (k, v) :: l' => if Nat.eqb k n then Some v else assoc n l'
  end.

(** [m.group(n)] for [n >= 1]: [None] when the group took no part. *)
Definition group (text : str) (m : rmatch) (n : nat) : option str :=
  match assoc n (m_caps m) with
  | Some (a, b) => Some (slice text a b)
  | None => None
  end.

(** A literal word, character by character. *)
Fixpoint lit (s : str) : regex :=
  match s with
  | [] => Eps
  | [c] => One (Lit c)
  | c :: s' => Cat (One (Lit c)) (lit s')
  end.

Definition plus (c : chr) : regex := Cat (One c) (Rep false c).

Definition seq (rs : list regex) : regex := fold_right Cat Eps rs.

Fixpoint alts (rs : list regex) : regex :=
  match rs with
  | [] => Eps
  | [r] => r
  | r :: rs' => Alt r (alts rs')
  end.

Section Matcher.

Context {U : Unicode}.

Definition item_mem (x : N) (i : item) : bool :=
  match i with
  | Chr c => N.eqb x c
  | Range lo hi => N.leb lo x && N.leb x hi
  | Digit => isdecimal x
  | Space => isspace x
  | Word => isalnum x || N.eqb x 95
  end.

(** Does the code point [x] match [c]; [ic] is [re.IGNORECASE].  The
    classes of the patterns hold no cased letter, so the flag only
    changes how a cased literal compares. *)
Definition chr_ok (ic : bool) (c : chr) (x : N) : bool :=
  match c with
  | Lit c => if ic && iscased c then re_ieq c x else N.eqb c x
  | Dot => negb (N.eqb x 10)
  | Cls neg items => xorb neg (existsb (item_mem x) items)
  end.

Section Rep.
Variable ok : N -> bool.
Variable k : nat -> str -> option mstate.

(** [c*]: take as many as there are, give back one at a time. *)
Fixpoint rep_greedy (p : nat) (s : str) : option mstate :=
  match s with
  | x :: s' =>
      if ok x then
        match rep_greedy (S p) s' with
        | Some r => Some r
        | None => k p s
        end
      else k p s
  | [] => k p s
  end.

(** [c*?]: try to go on first, take one more when that fails. *)
Fixpoint rep_lazy (p : nat) (s : str) : option mstate :=
  match k p s with
  | Some r => Some r
  | None =>
      match s with
      | x :: s' => if ok x then rep_lazy (S p) s' else None
      | [] => None
      end
  end.
End Rep.

(** The backtracking matcher, in continuation-passing style: [exec ic r
    st k] is the first success, in the priority order of [re], of
    matching [r] at [st] and then running the rest of the match [k]. *)
Fixpoint exec (ic : bool) (r : regex) (st : mstate)
         (k : mstate -> option mstate) : option mstate :=
  match r with
  | Eps => k st
  | One c =>
      match rest st with
      | x :: s' =>
          if chr_ok ic c x then k (MState (S (pos st)) s' (caps st)) else None
      | [] => None
      end
  | Rep lazy c =>
      (if lazy then rep_lazy else rep_greedy)
        (chr_ok ic c) (fun p s => k (MState p s (caps st))) (pos st) (rest st)
  | Cat a b => exec ic a st (fun st' => exec ic b st' k)
  | Alt a b =>
      match exec ic a st k with
      | Some res => Some res
      | None => exec ic b st k
      end
  | Opt a =>
      match exec ic a st k with
      | Some res => Some res
      | None => k st
      end
  | Group n a =>
      exec ic a st
        (fun st' => k (MState (pos st') (rest st') ((n, (pos st, pos st')) :: caps st')))
  end.

(** A match that starts at position [p], where [s] is the text from
    [p] on. *)
Definition match_at (ic : bool) (r : regex) (p : nat) (s : str) : option rmatch :=
  match exec ic r (MState p s []) Some with
  | Some st => Some (RMatch p (pos st) (caps st))
  | None => None
  end.

(** [re.search]: the match at the leftmost position that has one. *)
Fixpoint search_from (ic : bool) (r : regex) (p : nat) (s : str) : option rmatch :=
  match match_at ic r p s with
  | Some m => Some m
  | None =>
      match s with
      | [] => None
      | _ :: s' => search_from ic r (S p) s'
      end
  end.

Definition search (ic : bool) (r : regex) (text : str) : option rmatch :=
  search_from ic r 0 text.

(** [re.finditer]: the matches from left to right, each search starting
    where the match before it ended; [skip] counts the characters of the
    last match that are still to be passed.  No pattern of the source
    matches the empty string, so a match always moves the scan on. *)
Fixpoint finditer_from (ic : bool) (r : regex) (skip p : nat) (s : str)
  {struct s} : list rmatch :=
  match skip with
  | S skip' =>
      match s with
      | [] => []
      | _ :: s' => finditer_from ic r skip' (S p) s'
      end
  | O =>
      match match_at ic r p s with
      | Some m =>
          m :: match s with
               | [] => []
               | _ :: s' => finditer_from ic r (m_end m - p - 1) (S p) s'
               end
      | None =>
          match s with
          | [] => []
          | _ :: s' => finditer_from ic r 0 (S p) s'
          end
      end
  end.

Definition finditer (ic : bool) (r : regex) (text : str) : list rmatch :=
  finditer_from ic r 0 0 text.

End Matcher.

End Re.

Import Re.

(** ** Python values *)

Module Py.

(** The exceptions the modelled code can raise. *)
Inductive exn :=
| AttributeError (attr : string)
| ValueError
| TypeError.

Inductive result (A : Type) :=
| Ok (a : A)
| Raise (e : exn).

Arguments Ok {A} a.
Arguments Raise {A} e.

Definition bind {A B : Type} (m : result A) (f : A -> result B) : result B :=
  match m with
  | Ok a => f a
  | Raise e => Raise e
  end.

(** A [float] is the rational its literal denotes; rounding to binary64 is
    not part of the embedding.  Values are kept reduced, so that equal
    numbers are equal terms. *)
Definition float := Q.

(** A coordinate tuple [(x, y, z)].  The source's default tuples hold the
    ints 0 and 100, which compare equal to the floats. *)
Definition point := (float * float * float)%type.

Inductive value :=
| VStr (s : str)
| VNum (q : float)
| VBool (b : bool)
| VPoint (p : point)
| VPoints (ps : list point).

(** A descriptor dictionary, keys in the order of the dict literal. *)
Definition dict := list (string * value).

Fixpoint get (d : dict) (key : string) : option value :=
  match d with
  | [] => None
  | (k, v) :: d' => if String.eqb k key then Some v else get d' key
  end.

Fixpoint dropwhile (f : N -> bool) (s : str) : str :=
  match s with
  | [] => []
  | x :: s' => if f x then dropwhile f s' else s
  end.

Fixpoint span (f : N -> bool) (s : str) : str * str :=
  match s with
  | [] => ([], [])
  | x :: s' => if f x then let (a, b) := span f s' in (x :: a, b) else ([], s)
  end.

(** [posixpath.join] of two components. *)
Definition path_join (a b : str) : str :=
  match b with
  | 47%N :: _ => b
  | _ =>
      match rev a with
      | [] => b
      | 47%N :: _ => a ++ b
      | _ => a ++ 47%N :: b
      end
  end.

Section WithUnicode.

Context {U : Unicode}.

(** [s.strip()] *)
Definition strip (s : str) : str :=
  rev (dropwhile isspace (rev (dropwhile isspace s))).

Definition digits (ds : str) : N :=
  fold_left (fun a d => (a * 10 + digit_value d)%N) ds 0%N.

(** A leading sign: is it a minus, and what follows it. *)
Definition split_sign (s : str) : bool * str :=
  match s with
  | x :: r =>
      if N.eqb x 45 then (true, r)
      else if N.eqb x 43 then (false, r)
      else (false, s)
  | [] => (false, s)
  end.

(** The number [ip.fp] with the sign [neg]. *)
Definition decimal (neg : bool) (ip fp : str) : float :=
  let m := Z.of_N (digits (ip ++ fp)) in
  Qred (Qmake (if neg then - m else m)
              (Z.to_pos (10 ^ Z.of_nat (List.length fp)))).

(** [float(s)] on the plain decimal literals, [sign digits . digits]
    with either run of digits possibly empty but not both; the other
    spellings [float] accepts (exponents, [inf], [nan], underscores,
    padding) raise here, and no pattern of the source produces one. *)
Definition float_of_str (s : str) : result float :=
  let '(neg, body) := split_sign s in
  let '(ip, r) := span isdecimal body in
  let mk (fp : str) : result float :=
    match ip, fp with
    | [], [] => Raise ValueError
    | _, _ => Ok (decimal neg ip fp)
    end in
  match r with
  | [] => mk []
  | x :: fp =>
      if N.eqb x 46 && forallb isdecimal fp then mk fp else Raise ValueError
  end.

Fixpoint int_digits (after_digit : bool) (acc : N) (s : str) : option N :=
  match s with
  | [] => if after_digit then Some acc else None
  | c :: r =>
      if isdecimal c then int_digits true (acc * 10 + digit_value c)%N r
      else if N.eqb c 95 && after_digit then int_digits false acc r
      else None
  end.

(** [int(s)]: padding, a sign, decimal digits with single underscores
    between them; [None] is [ValueError].  (The cap recent interpreters
    put on the number of digits is not modelled.) *)
Definition int_of_str (s : str) : option Z :=
  let '(neg, body) := split_sign (strip s) in
  match int_digits false 0%N body with
  | Some n => Some (if neg then - Z.of_N n else Z.of_N n)%Z
  | None => None
  end.

End WithUnicode.

End Py.

Import Py.

Notation "x <- m ;; f" := (bind m (fun x => f))
  (at level 61, m at next level, right associativity).

(** ** The processor object *)

(** The attributes a processor can carry.  [__init__] assigns the first
    three; the assignment of [domain_keywords] is commented out in the
    source, so a processor as constructed has no such attribute ([None]),
    and reading it raises [AttributeError]. *)
Record NLPProcessor := {
  color_rgb_map : list (str * Z);
  shape_keywords : list (str * str);
  action_keywords : list (str * str);
  domain_keywords : option (list (str * str))
}.

(** The two entries of [config.json] the module reads: the file is not part
    of the sources, its values are taken as given. *)
Record Config := {
  output_directory : str;
  output_default_filename : str
}.

Definition __init__ : NLPProcessor :=
  {| color_rgb_map :=
       [ (u "红色", 1); (u "黄色", 2); (u "绿色", 3); (u "青色", 4); (u "蓝色", 5);
         (u "洋红色", 6); (u "白色", 7); (u "灰色", 8); (u "浅灰色", 9);
         (u "黑色", 250); (u "棕色", 251); (u "橙色", 30); (u "紫色", 200);
         (u "Red", 1); (u "Yellow", 2); (u "Green", 3); (u "Cyan", 4);
         (u "Blue", 5); (u "Magenta", 6); (u "White", 7); (u "Gray", 8);
         (u "Light Gray", 9); (u "Black", 250); (u "Brown", 251);
         (u "Orange", 30); (u "Purple", 200) ]%Z;
     shape_keywords :=
       [ (u "直线", u "line"); (u "线", u "line");
         (u "圆", u "circle"); (u "圆形", u "circle");
         (u "弧", u "arc"); (u "圆弧", u "arc");
         (u "矩形", u "rectangle"); (u "方形", u "rectangle"); (u "正方形", u "square");
         (u "多段线", u "polyline"); (u "折线", u "polyline");
         (u "文本", u "text"); (u "文字", u "text");
         (u "标注", u "dimension"); (u "尺寸标注", u "dimension");
         (u "墙", u "wall"); (u "墙体", u "wall");
         (u "门", u "door"); (u "窗", u "window");
         (u "楼梯", u "stair"); (u "柱子", u "column");
         (u "插座", u "outlet");
         (u "开关", u "switch");
         (u "灯", u "light"); (u "灯具", u "light");
         (u "配电箱", u "distribution_box");
         (u "轴", u "shaft");
         (u "齿轮", u "gear");
         (u "轴承", u "bearing");
         (u "法兰", u "flange") ];
     action_keywords :=
       [ (u "画", u "draw"); (u "绘制", u "draw"); (u "创建", u "draw"); (u "添加", u "draw");
         (u "修改", u "modify"); (u "调整", u "modify"); (u "改变", u "modify");
         (u "移动", u "move"); (u "旋转", u "rotate"); (u "缩放", u "scale");
         (u "放大", u "scale_up"); (u "缩小", u "scale_down");
         (u "删除", u "erase"); (u "擦除", u "erase"); (u "移除", u "erase");
         (u "保存", u "save");
         (u "标注", u "dimension");
         (u "填充", u "hatch");
         (u "创建图层", u "create_layer");
         (u "切换图层", u "change_layer") ];
     domain_keywords := None |}.

(** The table of the commented-out assignment to [self.domain_keywords]. *)
Definition commented_domain_keywords : list (str * str) :=
  [ (u "建筑", u "architecture"); (u "电气", u "electrical");
    (u "机械", u "mechanical"); (u "土木", u "civil");
    (u "管道", u "piping"); (u "结构", u "structural") ].

(** [self.domain_keywords = table] *)
Definition set_domain_keywords (self : NLPProcessor) (table : list (str * str))
  : NLPProcessor :=
  {| color_rgb_map := color_rgb_map self;
     shape_keywords := shape_keywords self;
     action_keywords := action_keywords self;
     domain_keywords := Some table |}.

(** ** The patterns

    Each is shown above its definition in verbose form: the blanks are not
    part of it. *)

Module Pat.

Definition c (s : string) : N := hd 0%N (u s).

Definition chars (s : string) : list item := map Chr (u s).

Definition digit : chr := Cls false [Digit].
Definition space : chr := Cls false [Space].
Definition quote : chr := Cls false (chars "'" ++ [Chr 34%N]).

(** [( \d+ \.? \d* )] *)
Definition unsigned (n : nat) : regex :=
  Group n (Cat (plus digit) (Cat (Opt (One (Lit (c ".")))) (Rep false digit))).

(** [( -? \d+ \.? \d* )] *)
Definition number (n : nat) : regex :=
  Group n (Cat (Opt (One (Lit (c "-"))))
               (Cat (plus digit) (Cat (Opt (One (Lit (c ".")))) (Rep false digit)))).

(** [\s* , \s*] *)
Definition comma : regex :=
  Cat (Rep false space) (Cat (One (Lit (c ","))) (Rep false space)).

(** [\(? \s* ( -?\d+\.?\d* ) \s*,\s* ( -?\d+\.?\d* )
    (?: \s*,\s* ( -?\d+\.?\d* ) )? \s* \)?] *)
Definition coordinate : regex :=
  Cat (Opt (One (Lit (c "("))))
    (Cat (Rep false space)
      (Cat (number 1)
        (Cat comma
          (Cat (number 2)
            (Cat (Opt (Cat comma (number 3)))
              (Cat (Rep false space) (Opt (One (Lit (c ")")))))))))).

(** [(?:l1|l2|...) [^\d]*? ( -?\d+\.?\d* )] *)
Definition labelled (labels : list string) : regex :=
  Cat (alts (map (fun l => lit (u l)) labels))
    (Cat (Rep true (Cls true [Digit])) (number 1)).

(** [(?:l1|l2|...) [^\d]*? ( \d+\.?\d* )] *)
Definition labelled_unsigned (labels : list string) : regex :=
  Cat (alts (map (fun l => lit (u l)) labels))
    (Cat (Rep true (Cls true [Digit])) (unsigned 1)).

(** [[\x22\'] ( .*? ) [\x22\']], with \x22 for the double quote. *)
Definition quoted : regex :=
  Cat (One quote) (Cat (Group 1 (Rep true Dot)) (One quote)).

(** [[文本内容|text|内容] [：:] \s* [\x22\'] ( .*? ) [\x22\']] *)
Definition text_content : regex :=
  Cat (One (Cls false (chars "文本内容|text|内容")))
    (Cat (One (Cls false (chars "：:")))
      (Cat (Rep false space) quoted)).

(** [(?:图案|pattern) [^\w]*? [\x22\'] ( .*? ) [\x22\'] \']: the closing quote is
    followed by one more single quote. *)
Definition hatch_quoted : regex :=
  Cat (alts [lit (u "图案"); lit (u "pattern")])
    (Cat (Rep true (Cls true [Word]))
      (Cat quoted (One (Lit (c "'"))))).

(** [(?:图案|pattern) [^\w]*? ( \w+ )] *)
Definition hatch_word : regex :=
  Cat (alts [lit (u "图案"); lit (u "pattern")])
    (Cat (Rep true (Cls true [Word]))
      (Group 1 (plus (Cls false [Word])))).

(** [(?:路径|保存到|path) [^\w]*? [\x22\'] ( .*? ) [\x22\']] *)
Definition path : regex :=
  Cat (alts [lit (u "路径"); lit (u "保存到"); lit (u "path")])
    (Cat (Rep true (Cls true [Word])) quoted).

(** [( [深浅淡]? [a-zA-Z\u4e00-\u9fa5]+ 色 )] *)
Definition color : regex :=
  Group 1
    (Cat (Opt (One (Cls false (chars "深浅淡"))))
      (Cat (plus (Cls false [Range (c "a") (c "z"); Range (c "A") (c "Z");
                             Range 19968%N 40869%N]))
           (One (Lit (c "色"))))).

End Pat.


(** ** The methods of [NLPProcessor] *)

Section Methods.

Context {U : Unicode}.

(** The module-level [config], read from [config.json] at import. *)
Variable config : Config.

Definition origin : point := (0, 0, 0)%Q.

(** [float(m.group(n))]: [float(None)] is a [TypeError]. *)
Definition float_group (text : str) (m : rmatch) (n : nat) : result float :=
  match group text m n with
  | Some w => float_of_str w
  | None => Raise TypeError
  end.

(** *** [extract_color_from_command] *)

(** The first loop: the value of the first key, in table order, whose
    lower-cased name occurs in the command. *)
Fixpoint color_by_name (table : list (str * Z)) (command : str) : option Z :=
  match table with
  | [] => None
  | (color_name, index) :: table' =>
      if contains (lower color_name) command then Some index
      else color_by_name table' command
  end.

(** [self.color_rgb_map[key]] when [key in self.color_rgb_map]. *)
Fixpoint color_lookup (table : list (str * Z)) (key : str) : option Z :=
  match table with
  | [] => None
  | (color_name, index) :: table' =>
      if Str.eqb color_name key then Some index else color_lookup table' key
  end.

(** [re.findall] with a pattern of one group: the text of group 1 of every
    match. *)
Definition findall (ic : bool) (r : regex) (text : str) : list str :=
  map (fun m => match group text m 1 with Some w => w | None => [] end)
      (finditer ic r text).

(** The second loop: the first candidate that is a key of the table. *)
Fixpoint color_by_match (table : list (str * Z)) (color_matches : list str)
  : option Z :=
  match color_matches with
  | [] => None
  | color_match :: rest =>
      match color_lookup table color_match with
      | Some index => Some index
      | None => color_by_match table rest
      end
  end.

Definition extract_color_from_command (self : NLPProcessor) (command : option str) : Z :=
  match command with
  | None => 7
  | Some command =>
      let num :=
        match int_of_str command with
        | Some num => if ((1 <=? num) && (num <=? 255))%Z then Some num else None
        | None => None
        end in
      match num with
      | Some num => num
      | None =>
          let command := lower command in
          match color_by_name (color_rgb_map self) command with
          | Some index => index
          | None =>
              match color_by_match (color_rgb_map self)
                      (findall false Pat.color command) with
              | Some index => index
              | None => 7
              end
          end
      end
  end%Z.

(** *** [_identify_command_type] *)

(** The first loop of the method: the type of the first domain keyword
    that occurs in the command. *)
Fixpoint scan_domain (table : list (str * str)) (command : str) : option str :=
  match table with
  | [] => None
  | (domain_keyword, domain_type) :: table' =>
      if contains domain_keyword command then Some domain_type
      else scan_domain table' command
  end.

(** The chain of tests on [shape_type] under [action_type == "draw"];
    [None] when no branch returns. *)
Definition draw_intent (shape_type : str) : option str :=
  if Str.eqb shape_type (u "line") then Some (u "draw_line")
  else if Str.eqb shape_type (u "circle") then Some (u "draw_circle")
  else if Str.eqb shape_type (u "arc") then Some (u "draw_arc")
  else if Str.eqb shape_type (u "rectangle") || Str.eqb shape_type (u "square")
  then Some (u "draw_rectangle")
  else if Str.eqb shape_type (u "polyline") then Some (u "draw_polyline")
  else if Str.eqb shape_type (u "text") then Some (u "draw_text")
  else if Str.eqb shape_type (u "dimension") then Some (u "add_dimension")
  else None.

(** The inner loop over [self.shape_keywords.items()]: [Some] is a
    [return], [None] the end of the loop. *)
Fixpoint scan_shapes (shapes : list (str * str)) (action_type command : str)
  : option str :=
  match shapes with
  | [] => None
  | (shape, shape_type) :: shapes' =>
      let next := scan_shapes shapes' action_type command in
      if contains shape command then
        if Str.eqb action_type (u "draw") then
          match draw_intent shape_type with
          | Some intent => Some intent
          | None => next
          end
        else next
      else next
  end.

(** The outer loop over [self.action_keywords.items()]. *)
Fixpoint scan_actions (actions : list (str * str)) (shapes : list (str * str))
         (command : str) : option str :=
  match actions with
  | [] => None
  | (action, action_type) :: actions' =>
      if contains action command then
        match scan_shapes shapes action_type command with
        | Some intent => Some intent
        | None => scan_actions actions' shapes command
        end
      else scan_actions actions' shapes command
  end.

(** The body of [_identify_command_type] after the domain scan: the
    action and shape loops, then the special phrases in their fixed
    order.  The variable [domain] is not read by it. *)
Definition identify_by_keywords (self : NLPProcessor) (command : str) : str :=
  match scan_actions (action_keywords self) (shape_keywords self) command with
  | Some intent => intent
  | None =>
      if contains (u "图层") command
         && existsb (fun action => contains action command)
                    [u "创建"; u "新建"; u "添加"]
      then u "create_layer"
      else if contains (u "标注") command then u "add_dimension"
      else if contains (u "保存") command then u "save"
      else u "unknown"
  end.

Definition _identify_command_type (self : NLPProcessor) (command : str) : result str :=
  match domain_keywords self with
  | None => Raise (AttributeError "domain_keywords")
  | Some table =>
      let domain := scan_domain table command in
      Ok (identify_by_keywords self command)
  end.

(** *** The extractors *)

Fixpoint coordinates_of (text : str) (matches : list rmatch) : result (list point) :=
  match matches with
  | [] => Ok []
  | m :: matches' =>
      x <- float_group text m 1 ;;
      y <- float_group text m 2 ;;
      z <- match group text m 3 with
           | Some ((_ :: _) as w) => float_of_str w
           | _ => Ok 0%Q
           end ;;
      coordinates <- coordinates_of text matches' ;;
      Ok ((x, y, z) :: coordinates)
  end.

Definition _extract_coordinates (text : str) : result (list point) :=
  coordinates_of text (finditer false Pat.coordinate text).

Fixpoint floats_of (ws : list str) : result (list float) :=
  match ws with
  | [] => Ok []
  | w :: ws' =>
      x <- float_of_str w ;;
      xs <- floats_of ws' ;;
      Ok (x :: xs)
  end.

Definition _extract_numbers (text : str) : result (list float) :=
  floats_of (findall false (Pat.number 1) text).

(** [value = default; m = re.search(pattern, command, flags); if m: value =
    float(m.group(1))] *)
Definition float_param (ic : bool) (pattern : regex) (command : str)
           (default : float) : result float :=
  match search ic pattern command with
  | Some m => float_group command m 1
  | None => Ok default
  end.

(** *** The builders *)

Definition _parse_draw_line (command : str) : result dict :=
  coordinates <- _extract_coordinates command ;;
  if Nat.leb 2 (List.length coordinates) then
    Ok [ ("type", VStr (u "draw_line"));
         ("start_point", VPoint (nth 0 coordinates origin));
         ("end_point", VPoint (nth 1 coordinates origin)) ]%string
  else
    Ok [ ("type", VStr (u "draw_line"));
         ("start_point", VPoint origin);
         ("end_point", VPoint (100, 100, 0)%Q);
         ("note", VStr (u "使用默认坐标，因为命令中未提供足够的坐标信息")) ]%string.

(** The radius of a circle or an arc: the labelled number, else the first
    number of the text, else 50. *)
Definition radius_of (command : str) (numbers : list float) : result float :=
  match search true (Pat.labelled ["半径"; "r"; "radius"]%string) command with
  | Some m => float_group command m 1
  | None =>
      match numbers with
      | n :: _ => Ok n
      | [] => Ok 50%Q
      end
  end.

Definition first_or_origin (coordinates : list point) : point :=
  match coordinates with
  | p :: _ => p
  | [] => origin
  end.

Definition _parse_draw_circle (command : str) : result dict :=
  coordinates <- _extract_coordinates command ;;
  numbers <- _extract_numbers command ;;
  radius <- radius_of command numbers ;;
  let center := first_or_origin coordinates in
  Ok [ ("type", VStr (u "draw_circle"));
       ("center", VPoint center);
       ("radius", VNum radius) ]%string.

Definition _parse_draw_arc (command : str) : result dict :=
  coordinates <- _extract_coordinates command ;;
  numbers <- _extract_numbers command ;;
  let center := first_or_origin coordinates in
  radius <- radius_of command numbers ;;
  start_angle <-
    float_param true (Pat.labelled ["起始角度"; "start angle"]%string) command 0%Q ;;
  end_angle <-
    float_param true (Pat.labelled ["结束角度"; "end angle"]%string) command 90%Q ;;
  Ok [ ("type", VStr (u "draw_arc"));
       ("center", VPoint center);
       ("radius", VNum radius);
       ("start_angle", VNum start_angle);
       ("end_angle", VNum end_angle) ]%string.

Definition _parse_draw_rectangle (command : str) : result dict :=
  coordinates <- _extract_coordinates command ;;
  if Nat.leb 2 (List.length coordinates) then
    Ok [ ("type", VStr (u "draw_rectangle"));
         ("corner1", VPoint (nth 0 coordinates origin));
         ("corner2", VPoint (nth 1 coordinates origin)) ]%string
  else
    width <- float_param true (Pat.labelled ["宽度"; "width"]%string) command 100%Q ;;
    height <- float_param true (Pat.labelled ["高度"; "height"]%string) command 100%Q ;;
    let '(corner1, corner2) :=
      if Nat.eqb (List.length coordinates) 1 then
        let '(x, y, z) := nth 0 coordinates origin in
        ((x, y, z), (Qred (x + width), Qred (y + height), z))
      else (origin, (width, height, 0%Q)) in
    Ok [ ("type", VStr (u "draw_rectangle"));
         ("corner1", VPoint corner1);
         ("corner2", VPoint corner2) ]%string.

Definition _parse_draw_polyline (command : str) : result dict :=
  coordinates <- _extract_coordinates command ;;
  let closed := contains (u "闭合") command || contains (u "封闭") command in
  if Nat.leb 2 (List.length coordinates) then
    Ok [ ("type", VStr (u "draw_polyline"));
         ("points", VPoints coordinates);
         ("closed", VBool closed) ]%string
  else
    Ok [ ("type", VStr (u "error"));
         ("message", VStr (u "绘制多段线需要至少两个坐标点")) ]%string.

(** [m.group(1)] of a match that has its group 1. *)
Definition group1 (text : str) (m : rmatch) : str :=
  match group text m 1 with
  | Some w => w
  | None => []
  end.

Definition _parse_draw_text (command : str) : result dict :=
  coordinates <- _extract_coordinates command ;;
  let text :=
    match search false Pat.text_content command with
    | Some m => group1 command m
    | None =>
        match search false Pat.quoted command with
        | Some m => group1 command m
        | None => u "示例文本"
        end
    end in
  height <- float_param true (Pat.labelled ["高度"; "height"]%string) command (5 # 2)%Q ;;
  rotation <-
    float_param true (Pat.labelled ["旋转"; "角度"; "rotation"]%string) command 0%Q ;;
  let position := first_or_origin coordinates in
  Ok [ ("type", VStr (u "draw_text"));
       ("position", VPoint position);
       ("text", VStr text);
       ("height", VNum height);
       ("rotation", VNum rotation) ]%string.

(** The loop over [pattern_patterns]: the first pattern that matches gives
    the name, upper-cased. *)
Fixpoint pattern_name_of (patterns : list regex) (command : str) (default : str) : str :=
  match patterns with
  | [] => default
  | pattern :: patterns' =>
      match search true pattern command with
      | Some m => upper (group1 command m)
      | None => pattern_name_of patterns' command default
      end
  end.

(** The statements that follow the [if]/[else] of the source method (the
    body of a method whose [def] line is commented out) are never reached:
    both branches return. *)
Definition _parse_draw_hatch (command : str) : result dict :=
  coordinates <- _extract_coordinates command ;;
  let pattern_name :=
    pattern_name_of [Pat.hatch_quoted; Pat.hatch_word] command (u "SOLID") in
  scale <-
    float_param true (Pat.labelled_unsigned ["比例"; "缩放"; "scale"]%string) command 1%Q ;;
  if Nat.leb 3 (List.length coordinates) then
    Ok [ ("type", VStr (u "draw_hatch"));
         ("points", VPoints coordinates);
         ("pattern_name", VStr pattern_name);
         ("scale", VNum scale) ]%string
  else
    Ok [ ("type", VStr (u "error"));
         ("message", VStr (u "绘制填充需要至少3个点来定义边界")) ]%string.

(** The method named [_parse_save] in the source: its docstring and body
    are those of the wall parser. *)
Definition _parse_save (command : str) : result dict :=
  coordinates <- _extract_coordinates command ;;
  width <-
    float_param false (Pat.labelled_unsigned ["宽度"; "宽"; "厚"; "厚度"]%string)
      command 10%Q ;;
  if Nat.leb 2 (List.length coordinates) then
    Ok [ ("type", VStr (u "draw_wall"));
         ("start_point", VPoint (nth 0 coordinates origin));
         ("end_point", VPoint (nth 1 coordinates origin));
         ("width", VNum width) ]%string
  else
    Ok [ ("type", VStr (u "error"));
         ("message", VStr (u "绘制墙体需要提供起点和终点坐标")) ]%string.

(** The method named [_parse_create_layer] in the source: its docstring
    and body are those of the save parser. *)
Definition _parse_create_layer (command : str) : result dict :=
  let file_path :=
    match search true Pat.path command with
    | Some m => group1 command m
    | None => path_join (output_directory config) (output_default_filename config)
    end in
  Ok [ ("type", VStr (u "save"));
       ("file_path", VStr file_path) ]%string.

(** *** [parse_command] and [process_command] *)

(** The chain of tests on [command_type].  [_parse_draw_wall] is called
    by it but is not defined (its [def] is commented out). *)
Definition dispatch (command_type command : str) : result dict :=
  if Str.eqb command_type (u "draw_line") then _parse_draw_line command
  else if Str.eqb command_type (u "draw_circle") then _parse_draw_circle command
  else if Str.eqb command_type (u "draw_arc") then _parse_draw_arc command
  else if Str.eqb command_type (u "draw_rectangle") then _parse_draw_rectangle command
  else if Str.eqb command_type (u "draw_polyline") then _parse_draw_polyline command
  else if Str.eqb command_type (u "draw_text") then _parse_draw_text command
  else if Str.eqb command_type (u "draw_hatch") then _parse_draw_hatch command
  else if Str.eqb command_type (u "save") then _parse_save command
  else if Str.eqb command_type (u "draw_wall") then
    Raise (AttributeError "_parse_draw_wall")
  else if Str.eqb command_type (u "create_layer") then _parse_create_layer command
  else
    Ok [ ("type", VStr (u "unknown"));
         ("error", VStr (u "无法识别的命令类型"));
         ("original_command", VStr command) ]%string.

Definition parse_command (self : NLPProcessor) (command : str) : result dict :=
  let command := strip (lower command) in
  command_type <- _identify_command_type self command ;;
  dispatch command_type command.

Definition process_command (self : NLPProcessor) (command : str) : result dict :=
  parse_command self command.

End Methods.

(** * Specifications *)

(** [p] occurs in [s] as a substring. *)
Definition occurs (p s : str) : Prop := exists a b, s = a ++ p ++ b.

Section RegexSpec.

Context {U : Unicode}.

(** What one way through a pattern does to the state, whatever the
    priorities: the matcher only ever returns such a way. *)
Inductive run (ic : bool) : regex -> mstate -> mstate -> Prop :=
| run_eps st : run ic Eps st st
| run_one c x s' p cs :
    chr_ok ic c x = true ->
    run ic (One c) (MState p (x :: s') cs) (MState (S p) s' cs)
| run_rep lazy c p w s' cs :
    forallb (chr_ok ic c) w = true ->
    run ic (Rep lazy c) (MState p (w ++ s') cs) (MState (p + List.length w) s' cs)
| run_cat a b st1 st2 st3 :
    run ic a st1 st2 -> run ic b st2 st3 -> run ic (Cat a b) st1 st3
| run_alt_l a b st st' : run ic a st st' -> run ic (Alt a b) st st'
| run_alt_r a b st st' : run ic b st st' -> run ic (Alt a b) st st'
| run_opt_some a st st' : run ic a st st' -> run ic (Opt a) st st'
| run_opt_none a st : run ic (Opt a) st st
| run_group n a st st' :
    run ic a st st' ->
    run ic (Group n a) st
        (MState (pos st') (rest st') ((n, (pos st, pos st')) :: caps st')).

(** A state reached after reading [w], with the groups untouched. *)
Definition reads (w : str) (st st' : mstate) : Prop :=
  rest st = w ++ rest st' /\ pos st' = pos st + List.length w.

(** The words of [-?\d+\.?\d*] ([signed]) and of [\d+\.?\d*]. *)
Definition numeral (signed : bool) (w : str) : Prop :=
  exists sg ip tl,
    w = sg ++ ip ++ tl /\
    (sg = [] \/ (signed = true /\ sg = [45%N])) /\
    ip <> [] /\ forallb isdecimal ip = true /\
    (tl = [] \/ exists fp, tl = 46%N :: fp /\ forallb isdecimal fp = true).

(** The matches of a scan from [lo] on: each starts at or after the end
    of the one before, is not empty and lies within the text. *)
Fixpoint ordered (lo len : nat) (ms : list rmatch) : Prop :=
  match ms with
  | [] => True
  | m :: ms' =>
      lo <= m_start m /\ m_start m < m_end m /\ m_end m <= len /\
      ordered (m_end m) len ms'
  end.

(** The coordinate a match of the coordinate pattern stands for: the
    numbers of its groups 1 and 2, and of group 3 when it took part,
    else 0. *)
Definition point_of_match (text : str) (m : rmatch) (p : point) : Prop :=
  let '(x, y, z) := p in
  exists w1 w2,
    group text m 1 = Some w1 /\ numeral true w1 /\ float_of_str w1 = Ok x /\
    group text m 2 = Some w2 /\ numeral true w2 /\ float_of_str w2 = Ok y /\
    match group text m 3 with
    | Some w3 => numeral true w3 /\ float_of_str w3 = Ok z
    | None => z = 0%Q
    end.

(** The state is where the text says it is. *)
Definition aligned (text : str) (st : mstate) : Prop :=
  skipn (pos st) text = rest st.

(** A pattern without capturing groups. *)
Fixpoint plain (r : regex) : bool :=
  match r with
  | Eps | One _ | Rep _ _ => true
  | Cat a b | Alt a b => plain a && plain b
  | Opt a => plain a
  | Group _ _ => false
  end.

(** What a match of the coordinate pattern at [p] looks like. *)
Definition coordinate_match (text : str) (m : rmatch) : Prop :=
  m_start m < m_end m /\ m_end m <= List.length text /\
  exists w1 w2,
    group text m 1 = Some w1 /\ numeral true w1 /\
    group text m 2 = Some w2 /\ numeral true w2 /\
    match group text m 3 with
    | Some w3 => numeral true w3
    | None => True
    end.

End RegexSpec.

(** The intents the action and shape loops can return. *)
Definition intents : list str :=
  [ u "draw_line"; u "draw_circle"; u "draw_arc"; u "draw_rectangle";
    u "draw_polyline"; u "draw_text"; u "add_dimension" ].

(** The configuration of the spec's example: directory [out], file name
    [drawing.dwg]. *)
Definition example_config : Config :=
  {| output_directory := u "out"; output_default_filename := u "drawing.dwg" |}.

(** A processor on which the commented-out assignment has been restored. *)
Definition restored : NLPProcessor :=
  set_domain_keywords __init__ commented_domain_keywords.

(** * Properties *)

(** ** Strings *)

Module StrFacts.

Lemma eqb_eq (a b : str) : Str.eqb a b = true <-> a = b.
Proof.
  revert b; induction a as [|x a IH]; intros [|y b]; simpl;
    try (split; [discriminate | congruence]); try tauto.
  rewrite andb_true_iff, N.eqb_eq, IH.
  split; [intros [-> ->]; reflexivity | intros H; inversion H; auto].
Qed.

Lemma eqb_refl (a : str) : Str.eqb a a = true.
Proof. apply eqb_eq; reflexivity. Qed.

Lemma startswith_spec (p s : str) :
  startswith p s = true <-> exists b, s = p ++ b.
Proof.
  revert s; induction p as [|x p IH]; intros s; simpl.
  - split; [intros _; exists s; reflexivity | reflexivity].
  - destruct s as [|y s].
    + split; [discriminate | intros [b Hb]; discriminate].
    + rewrite andb_true_iff, N.eqb_eq, IH.
      split.
      * intros [-> [b ->]]; exists b; reflexivity.
      * intros [b Hb]; inversion Hb; subst; split; [reflexivity | exists b; reflexivity].
Qed.

Lemma contains_spec (p s : str) : contains p s = true <-> occurs p s.
Proof.
  unfold occurs; induction s as [|y s IH].
  - simpl. rewrite orb_false_r, startswith_spec.
    split.
    + intros [b Hb]; exists [], b; exact Hb.
    + intros [a [b Hab]].
      destruct a; [exists b; exact Hab | discriminate].
  - cbn [contains]. rewrite orb_true_iff, startswith_spec, IH.
    split.
    + intros [[b Hb] | [a [b Hab]]].
      * exists [], b; exact Hb.
      * exists (y :: a), b; simpl; rewrite Hab; reflexivity.
    + intros [[|x a] [b Hab]].
      * left; exists b; exact Hab.
      * right; inversion Hab; subst; exists a, b; reflexivity.
Qed.

Lemma slice_app (text w r : str) (a : nat) :
  skipn a text = w ++ r -> slice text a (a + List.length w) = w.
Proof.
  intros H; unfold slice.
  replace (a + List.length w - a) with (List.length w) by lia.
  rewrite H, firstn_app, firstn_all, Nat.sub_diag; simpl.
  apply app_nil_r.
Qed.

Lemma skipn_app_next (text w r : str) (a : nat) :
  skipn a text = w ++ r -> skipn (a + List.length w) text = r.
Proof.
  intros H. rewrite Nat.add_comm, <- skipn_skipn, H.
  rewrite skipn_app, skipn_all, Nat.sub_diag; reflexivity.
Qed.

Lemma skipn_length_le (text s : str) (a : nat) :
  skipn a text = s -> s <> [] -> a + List.length s = List.length text.
Proof.
  intros H Hs.
  assert (L : List.length s = List.length text - a) by (rewrite <- H; apply length_skipn).
  destruct (Nat.le_gt_cases (List.length text) a) as [Hle|Hgt]; [|lia].
  rewrite skipn_all2 in H by exact Hle. congruence.
Qed.

End StrFacts.

Import StrFacts.

(** ** The matcher *)

Section ReFacts.

Context {U : Unicode}.

Lemma rep_greedy_sound ok k p s res :
  rep_greedy ok k p s = Some res ->
  exists w s', s = w ++ s' /\ forallb ok w = true /\
               k (p + List.length w) s' = Some res.
Proof.
  revert p; induction s as [|x s IH]; intros p; simpl.
  - intros H; exists [], []; simpl; rewrite Nat.add_0_r; auto.
  - destruct (ok x) eqn:Hx.
    + destruct (rep_greedy ok k (S p) s) eqn:Hrec.
      * intros E; injection E as ->.
        destruct (IH _ Hrec) as (w & s' & -> & Hw & Hk).
        exists (x :: w), s'; simpl; rewrite Hx, Hw.
        replace (p + S (List.length w)) with (S p + List.length w) by lia; auto.
      * intros H; exists [], (x :: s); simpl; rewrite Nat.add_0_r; auto.
    + intros H; exists [], (x :: s); simpl; rewrite Nat.add_0_r; auto.
Qed.

Lemma rep_lazy_sound ok k p s res :
  rep_lazy ok k p s = Some res ->
  exists w s', s = w ++ s' /\ forallb ok w = true /\
               k (p + List.length w) s' = Some res.
Proof.
  revert p; induction s as [|x s IH]; intros p; simpl.
  - destruct (k p []) eqn:Hk; [|discriminate].
    intros E; injection E as ->.
    exists [], []; simpl; rewrite Nat.add_0_r; auto.
  - destruct (k p (x :: s)) eqn:Hk.
    + intros E; injection E as ->.
      exists [], (x :: s); simpl; rewrite Nat.add_0_r; auto.
    + destruct (ok x) eqn:Hx; [|discriminate].
      intros Hrec.
      destruct (IH _ Hrec) as (w & s' & -> & Hw & Hk').
      exists (x :: w), s'; simpl; rewrite Hx, Hw.
      replace (p + S (List.length w)) with (S p + List.length w) by lia; auto.
Qed.

(** Whatever the matcher returns was reached along a way through the
    pattern. *)
Lemma exec_sound ic r :
  forall st k res,
    exec ic r st k = Some res ->
    exists st', run ic r st st' /\ k st' = Some res.
Proof.
  induction r as [|c|lazy c|a IHa b IHb|a IHa b IHb|a IHa|n a IHa];
    intros st k res; simpl.
  - intros H; exists st; split; [constructor | exact H].
  - destruct st as [p s cs]; simpl.
    destruct s as [|x s']; [discriminate|].
    destruct (chr_ok ic c x) eqn:Hx; [|discriminate].
    intros H; eexists; split; [constructor; exact Hx | exact H].
  - destruct st as [p s cs]; simpl; intros H.
    assert (E : exists w s', s = w ++ s' /\ forallb (chr_ok ic c) w = true /\
                             k (MState (p + List.length w) s' cs) = Some res).
    { destruct lazy;
        [apply rep_lazy_sound in H | apply rep_greedy_sound in H]; exact H. }
    destruct E as (w & s' & -> & Hw & Hk).
    eexists; split; [constructor; exact Hw | exact Hk].
  - intros H. apply IHa in H. destruct H as (st1 & R1 & H).
    apply IHb in H. destruct H as (st2 & R2 & H).
    exists st2; split; [econstructor; eauto | exact H].
  - destruct (exec ic a st k) eqn:Ha.
    + intros E; injection E as ->. apply IHa in Ha.
      destruct Ha as (st1 & R1 & H). exists st1; split; [apply run_alt_l|]; auto.
    + intros H. apply IHb in H.
      destruct H as (st1 & R1 & H). exists st1; split; [apply run_alt_r|]; auto.
  - destruct (exec ic a st k) eqn:Ha.
    + intros E; injection E as ->. apply IHa in Ha.
      destruct Ha as (st1 & R1 & H). exists st1; split; [apply run_opt_some|]; auto.
    + intros H. exists st; split; [apply run_opt_none | exact H].
  - intros H. apply IHa in H. destruct H as (st1 & R1 & H).
    eexists; split; [apply run_group; exact R1 | exact H].
Qed.

(** Inversion of a way through each form of pattern. *)

Lemma run_cat_inv ic a b st st' :
  run ic (Cat a b) st st' -> exists st1, run ic a st st1 /\ run ic b st1 st'.
Proof. inversion 1; subst; eauto. Qed.

Lemma run_opt_inv ic a st st' :
  run ic (Opt a) st st' -> run ic a st st' \/ st' = st.
Proof. inversion 1; subst; auto. Qed.

Lemma run_alt_inv ic a b st st' :
  run ic (Alt a b) st st' -> run ic a st st' \/ run ic b st st'.
Proof. inversion 1; subst; auto. Qed.

Lemma run_one_inv ic c st st' :
  run ic (One c) st st' ->
  exists x, chr_ok ic c x = true /\ reads [x] st st' /\ caps st' = caps st.
Proof.
  inversion 1; subst. exists x; unfold reads; simpl.
  repeat split; auto; lia.
Qed.

Lemma run_rep_inv ic lazy c st st' :
  run ic (Rep lazy c) st st' ->
  exists w, forallb (chr_ok ic c) w = true /\ reads w st st' /\ caps st' = caps st.
Proof.
  inversion 1; subst. exists w; unfold reads; simpl; auto.
Qed.

Lemma run_group_inv ic n a st st' :
  run ic (Group n a) st st' ->
  exists st1, run ic a st st1 /\ pos st' = pos st1 /\ rest st' = rest st1 /\
              caps st' = (n, (pos st, pos st1)) :: caps st1.
Proof. inversion 1; subst; simpl; eauto. Qed.

Lemma reads_nil st : reads [] st st.
Proof. unfold reads; simpl; split; [reflexivity | lia]. Qed.

Lemma reads_app w1 w2 st1 st2 st3 :
  reads w1 st1 st2 -> reads w2 st2 st3 -> reads (w1 ++ w2) st1 st3.
Proof.
  unfold reads; intros [E1 P1] [E2 P2].
  rewrite E1, E2, P2, P1, length_app, <- app_assoc; split; [reflexivity | lia].
Qed.

(** Every way through a pattern reads a piece of the text. *)
Lemma run_reads ic r st st' : run ic r st st' -> exists w, reads w st st'.
Proof.
  induction 1.
  - exists []; apply reads_nil.
  - exists [x]; unfold reads; simpl; split; [reflexivity | lia].
  - exists w; unfold reads; simpl; auto.
  - destruct IHrun1 as [w1 H1], IHrun2 as [w2 H2].
    exists (w1 ++ w2); eapply reads_app; eauto.
  - assumption.
  - assumption.
  - assumption.
  - exists []; apply reads_nil.
  - destruct IHrun as [w Hw]; exists w; exact Hw.
Qed.

End ReFacts.

(** ** Numerals *)

Section Numerals.

Context {U : Unicode}.

Lemma isdecimal_not_sign x :
  isdecimal x = true -> N.eqb x 45 = false /\ N.eqb x 43 = false /\ N.eqb x 46 = false.
Proof.
  intros Hx. pose proof signs_not_decimal as H.
  apply orb_false_elim in H; destruct H as [H H46].
  apply orb_false_elim in H; destruct H as [H43 H45].
  repeat split; apply N.eqb_neq; intros ->; congruence.
Qed.

Lemma chr_ok_digit ic x : chr_ok ic Pat.digit x = isdecimal x.
Proof. simpl. rewrite orb_false_r. reflexivity. Qed.

Lemma chr_ok_minus ic x : chr_ok ic (Lit (Pat.c "-")) x = true -> x = 45%N.
Proof.
  change (Pat.c "-") with 45%N. unfold chr_ok.
  pose proof signs_not_cased as H. apply orb_false_elim in H; destruct H as [H _].
  rewrite H, andb_false_r. intros E; apply N.eqb_eq in E; auto.
Qed.

Lemma chr_ok_point ic x : chr_ok ic (Lit (Pat.c ".")) x = true -> x = 46%N.
Proof.
  change (Pat.c ".") with 46%N. unfold chr_ok.
  pose proof signs_not_cased as H. apply orb_false_elim in H; destruct H as [_ H].
  rewrite H, andb_false_r. intros E; apply N.eqb_eq in E; auto.
Qed.

Lemma forallb_digit ic w :
  forallb (chr_ok ic Pat.digit) w = forallb isdecimal w.
Proof.
  induction w as [|x w IH]; simpl in *; [reflexivity|].
  rewrite IH, orb_false_r; reflexivity.
Qed.

(** The body of a number group after its optional sign. *)
Lemma run_digits ic st st' :
  run ic (Cat (plus Pat.digit)
              (Cat (Opt (One (Lit (Pat.c ".")))) (Rep false Pat.digit))) st st' ->
  exists w, reads w st st' /\ caps st' = caps st /\ numeral false w.
Proof.
  intros H.
  apply run_cat_inv in H; destruct H as (s1 & Hp & H).
  unfold plus in Hp.
  apply run_cat_inv in Hp; destruct Hp as (s0 & Hd & Hds).
  apply run_one_inv in Hd; destruct Hd as (d & Hdok & Rd & Cd).
  apply run_rep_inv in Hds; destruct Hds as (ds & Hdsok & Rds & Cds).
  apply run_cat_inv in H; destruct H as (s2 & Ho & Hf).
  apply run_rep_inv in Hf; destruct Hf as (fp & Hfok & Rf & Cf).
  rewrite chr_ok_digit in Hdok. rewrite forallb_digit in Hdsok, Hfok.
  apply run_opt_inv in Ho; destruct Ho as [Ho | ->].
  - apply run_one_inv in Ho; destruct Ho as (x & Hx & Rx & Cx).
    apply chr_ok_point in Hx; subst x.
    exists ((d :: ds) ++ [46%N] ++ fp); split; [|split].
    + change (d :: ds) with ([d] ++ ds).
      eapply reads_app; [eapply reads_app; eauto|].
      eapply reads_app; eauto.
    + congruence.
    + exists [], (d :: ds), (46%N :: fp); repeat split; auto.
      * discriminate.
      * simpl; rewrite Hdok, Hdsok; reflexivity.
      * right; exists fp; auto.
  - exists ((d :: ds ++ fp) ++ []); split; [|split].
    + rewrite app_nil_r. change (d :: ds ++ fp) with ([d] ++ ds ++ fp).
      eapply reads_app; [eauto|]. eapply reads_app; eauto.
    + congruence.
    + exists [], (d :: ds ++ fp), []; repeat split; auto.
      * discriminate.
      * simpl; rewrite Hdok, forallb_app, Hdsok, Hfok; reflexivity.
Qed.

Lemma run_unsigned ic n st st' :
  run ic (Pat.unsigned n) st st' ->
  exists w, reads w st st' /\ numeral false w /\
            caps st' = (n, (pos st, pos st')) :: caps st.
Proof.
  intros H. apply run_group_inv in H.
  destruct H as (s1 & H & P & R & C).
  apply run_digits in H; destruct H as (w & Rw & Cw & Nw).
  exists w; split; [|split].
  - destruct Rw as [E1 E2]; unfold reads; rewrite R, P; auto.
  - exact Nw.
  - rewrite C, Cw, P; reflexivity.
Qed.

Lemma numeral_signed w : numeral false w -> numeral true w.
Proof.
  intros (sg & ip & tl & -> & [->|[H _]] & Hrest); [|discriminate].
  exists [], ip, tl; repeat split; tauto.
Qed.

Lemma run_number ic n st st' :
  run ic (Pat.number n) st st' ->
  exists w, reads w st st' /\ numeral true w /\
            caps st' = (n, (pos st, pos st')) :: caps st.
Proof.
  intros H. apply run_group_inv in H.
  destruct H as (s1 & H & P & R & C).
  apply run_cat_inv in H; destruct H as (s0 & Hs & H).
  apply run_digits in H; destruct H as (w & Rw & Cw & Nw).
  apply run_opt_inv in Hs; destruct Hs as [Hs | ->].
  - apply run_one_inv in Hs; destruct Hs as (x & Hx & Rx & Cx).
    apply chr_ok_minus in Hx; subst x.
    exists ([45%N] ++ w); split; [|split].
    + assert (Rs : reads ([45%N] ++ w) st s1) by (eapply reads_app; eauto).
      destruct Rs as [E1 E2]; unfold reads; rewrite R, P; auto.
    + destruct Nw as (sg & ip & tl & -> & [->|[Hf _]] & Hrest); [|discriminate].
      exists [45%N], ip, tl.
      split; [reflexivity|]. split; [right; auto | exact Hrest].
    + rewrite C, Cw, Cx, P; reflexivity.
  - exists w; split; [|split].
    + destruct Rw as [E1 E2]; unfold reads; rewrite R, P; auto.
    + apply numeral_signed; exact Nw.
    + rewrite C, Cw, P; reflexivity.
Qed.

Lemma numeral_nonempty sg w : numeral sg w -> w <> [].
Proof.
  intros (s & ip & tl & -> & _ & Hip & _) E.
  apply app_eq_nil in E; destruct E as [_ E].
  apply app_eq_nil in E; destruct E as [E _]; auto.
Qed.

Lemma span_digits ip tl :
  forallb isdecimal ip = true ->
  (tl = [] \/ exists fp, tl = 46%N :: fp) ->
  span isdecimal (ip ++ tl) = (ip, tl).
Proof.
  intros Hip Htl. induction ip as [|x ip IH]; simpl in *.
  - destruct Htl as [->|[fp ->]]; simpl; [reflexivity|].
    pose proof signs_not_decimal as H.
    apply orb_false_elim in H; destruct H as [_ H]; rewrite H; reflexivity.
  - apply andb_true_iff in Hip; destruct Hip as [Hx Hip].
    rewrite Hx, (IH Hip); reflexivity.
Qed.

(** [float] accepts every word of the number groups. *)
Lemma numeral_float sg w : numeral sg w -> exists q, float_of_str w = Ok q.
Proof.
  intros (s & ip & tl & -> & Hs & Hip & Hd & Htl).
  destruct ip as [|d ip]; [congruence|]. clear Hip.
  assert (Hd' := Hd). simpl in Hd'. apply andb_true_iff in Hd'.
  destruct Hd' as [Hdd _]. apply isdecimal_not_sign in Hdd.
  destruct Hdd as (N45 & N43 & _).
  assert (Hsplit : exists neg, split_sign (s ++ (d :: ip) ++ tl) = (neg, (d :: ip) ++ tl)).
  { destruct Hs as [->|[_ ->]]; simpl.
    - rewrite N45, N43; eauto.
    - eauto. }
  destruct Hsplit as [neg Hsplit].
  unfold float_of_str. rewrite Hsplit.
  rewrite span_digits; auto.
  - destruct Htl as [->|[fp [-> Hfp]]].
    + eauto.
    + simpl. rewrite Hfp. eauto.
  - destruct Htl as [->|[fp [-> _]]]; eauto.
Qed.

End Numerals.

(** ** Matches of the coordinate pattern *)

Section Coordinates.

Context {U : Unicode}.

Lemma aligned_reads text w st st' :
  aligned text st -> reads w st st' ->
  aligned text st' /\ slice text (pos st) (pos st') = w /\ pos st <= pos st'.
Proof.
  unfold aligned, reads; intros A [E P].
  rewrite E in A. rewrite P. split; [|split].
  - eapply skipn_app_next; eauto.
  - eapply slice_app; eauto.
  - lia.
Qed.

(** A pattern without groups leaves the groups as they are. *)
Lemma run_plain ic r st st' :
  run ic r st st' -> plain r = true -> caps st' = caps st.
Proof.
  induction 1; simpl; intros Hp; auto; try discriminate.
  - apply andb_true_iff in Hp; destruct Hp as [Ha Hb].
    rewrite IHrun2, IHrun1; auto.
  - apply andb_true_iff in Hp; destruct Hp; auto.
  - apply andb_true_iff in Hp; destruct Hp; auto.
Qed.

Lemma run_plain_reads text ic r st st' :
  run ic r st st' -> plain r = true -> aligned text st ->
  aligned text st' /\ caps st' = caps st /\ pos st <= pos st'.
Proof.
  intros R Hp A. destruct (run_reads R) as [w Hw].
  destruct (aligned_reads A Hw) as (A' & _ & L).
  split; [exact A' | split; [eapply run_plain; eauto | exact L]].
Qed.

Lemma run_number_aligned text ic n st st' :
  run ic (Pat.number n) st st' -> aligned text st ->
  aligned text st' /\ pos st < pos st' /\
  numeral true (slice text (pos st) (pos st')) /\
  caps st' = (n, (pos st, pos st')) :: caps st.
Proof.
  intros R A. apply run_number in R. destruct R as (w & Rw & Nw & C).
  destruct (aligned_reads A Rw) as (A' & S & L).
  split; [exact A' | split; [| split; [rewrite S; exact Nw | exact C]]].
  destruct Rw as [_ P]. pose proof (numeral_nonempty Nw) as Hne.
  destruct w; [congruence | simpl in P; lia].
Qed.

Lemma match_at_coordinate text p m :
  match_at false Pat.coordinate p (skipn p text) = Some m ->
  m_start m = p /\ coordinate_match text m.
Proof.
  unfold match_at.
  destruct (exec false Pat.coordinate (MState p (skipn p text) []) Some)
    as [res|] eqn:E; [|discriminate].
  intros M; injection M as <-. simpl.
  apply exec_sound in E. destruct E as (st' & R & K). injection K as ->.
  split; [reflexivity|].
  assert (A0 : aligned text (MState p (skipn p text) [])) by reflexivity.
  destruct (run_reads R) as [W RW].
  unfold Pat.coordinate in R.
  apply run_cat_inv in R; destruct R as (sa & Ra & R).
  destruct (run_plain_reads (text := text) Ra eq_refl A0) as (Aa & Ca & La).
  apply run_cat_inv in R; destruct R as (sb & Rb & R).
  destruct (run_plain_reads Rb eq_refl Aa) as (Ab & Cb & Lb).
  apply run_cat_inv in R; destruct R as (sc & Rc & R).
  destruct (run_number_aligned Rc Ab) as (Ac & Lc & N1 & Cc).
  apply run_cat_inv in R; destruct R as (sd & Rd & R).
  destruct (run_plain_reads Rd eq_refl Ac) as (Ad & Cd & Ld).
  apply run_cat_inv in R; destruct R as (se & Re & R).
  destruct (run_number_aligned Re Ad) as (Ae & Le & N2 & Ce).
  apply run_cat_inv in R; destruct R as (sf & Rf & R).
  destruct (run_reads R) as [wt Rt].
  assert (Ct : plain (Cat (Rep false Pat.space) (Opt (One (Lit (Pat.c ")"))))) = true)
    by reflexivity.
  simpl in La, Ca, Cb.
  assert (Hend : forall sf', aligned text sf' -> pos se <= pos sf' ->
                   run false (Cat (Rep false Pat.space) (Opt (One (Lit (Pat.c ")"))))) sf' res ->
                   p < pos res /\ pos res <= List.length text /\ caps res = caps sf').
  { intros sf' Af Lf Rr.
    destruct (run_plain_reads Rr Ct Af) as (Ar & Cr & Lr).
    split; [lia | split; [|exact Cr]].
    destruct RW as [EW PW]; simpl in EW, PW.
    assert (LW : List.length (skipn p text) = List.length W + List.length (rest res))
      by (rewrite EW, length_app; reflexivity).
    rewrite length_skipn in LW. lia. }
  apply run_opt_inv in Rf; destruct Rf as [Rf | ->].
  - apply run_cat_inv in Rf; destruct Rf as (sg & Rg & Rf).
    destruct (run_plain_reads Rg eq_refl Ae) as (Ag & Cg & Lg).
    destruct (run_number_aligned Rf Ag) as (Af & Lf & N3 & Cf).
    destruct (Hend sf Af ltac:(lia) R) as (H1 & H2 & H3).
    split; [exact H1 | split; [exact H2|]].
    exists (slice text (pos sb) (pos sc)), (slice text (pos sd) (pos se)).
    unfold group; simpl.
    rewrite H3, Cf, Cg, Ce, Cd, Cc; simpl. auto.
  - destruct (Hend se Ae ltac:(lia) R) as (H1 & H2 & H3).
    split; [exact H1 | split; [exact H2|]].
    exists (slice text (pos sb) (pos sc)), (slice text (pos sd) (pos se)).
    unfold group; simpl.
    rewrite H3, Ce, Cd, Cc, Cb, Ca; simpl. auto.
Qed.

End Coordinates.

(** ** Scans *)

Section Scans.

Context {U : Unicode}.

Variable text : str.

Lemma skipn_tail p x (s : str) : skipn p text = x :: s -> skipn (S p) text = s.
Proof.
  intros H. change (S p) with (1 + p). rewrite <- skipn_skipn, H.
  reflexivity.
Qed.

(** [re.search] returns a match at some position of the text. *)
Lemma search_from_match ic r s : forall p m,
    s = skipn p text ->
    search_from ic r p s = Some m ->
    exists q, match_at ic r q (skipn q text) = Some m.
Proof.
  induction s as [|x s IH]; intros p m E; simpl.
  - destruct (match_at ic r p []) eqn:M; [|discriminate].
    intros H; injection H as ->. exists p; rewrite <- E; exact M.
  - destruct (match_at ic r p (x :: s)) eqn:M.
    + intros H; injection H as ->. exists p; rewrite <- E; exact M.
    + apply IH. symmetry; eapply skipn_tail; eauto.
Qed.

Lemma search_match ic r m :
  search ic r text = Some m -> exists q, match_at ic r q (skipn q text) = Some m.
Proof. apply search_from_match; reflexivity. Qed.

(** Every match of [re.finditer] is a match at some position. *)
Lemma finditer_from_match ic r s : forall skip p,
    s = skipn p text ->
    Forall (fun m => exists q, match_at ic r q (skipn q text) = Some m)
           (finditer_from ic r skip p s).
Proof.
  induction s as [|x s IH]; intros skip p E; simpl.
  - destruct skip; [|constructor].
    destruct (match_at ic r p []) eqn:M; constructor; [|constructor].
    exists p; rewrite <- E; exact M.
  - assert (E' : s = skipn (S p) text) by (symmetry; eapply skipn_tail; eauto).
    destruct skip; [|apply IH; exact E'].
    destruct (match_at ic r p (x :: s)) eqn:M; [constructor|]; auto.
    exists p; rewrite <- E; exact M.
Qed.

Lemma ordered_weaken len ms : forall lo lo',
    lo' <= lo -> ordered lo len ms -> ordered lo' len ms.
Proof.
  destruct ms as [|m ms]; simpl; intros lo lo' L H; [exact I|].
  destruct H as (H1 & H2); split; [lia | exact H2].
Qed.

(** The matches of a pattern that never matches the empty string come out
    in the order of the text, one after the end of the other. *)
Lemma finditer_from_ordered ic r :
  (forall q m, match_at ic r q (skipn q text) = Some m ->
               m_start m = q /\ q < m_end m /\ m_end m <= List.length text) ->
  forall s skip p,
    s = skipn p text ->
    ordered (p + skip) (List.length text) (finditer_from ic r skip p s).
Proof.
  intros Hm. induction s as [|x s IH]; intros skip p E; simpl.
  - destruct skip; [|exact I].
    destruct (match_at ic r p []) eqn:M; [|exact I].
    rewrite E in M. apply Hm in M. destruct M as (M1 & M2 & M3).
    simpl; repeat split; auto; lia.
  - assert (E' : s = skipn (S p) text) by (symmetry; eapply skipn_tail; eauto).
    destruct skip.
    + destruct (match_at ic r p (x :: s)) eqn:M.
      * rewrite E in M. apply Hm in M. destruct M as (M1 & M2 & M3).
        simpl; repeat split; auto; try lia.
        replace (m_end r0) with (S p + (m_end r0 - p - 1)) at 1 by lia.
        apply IH; exact E'.
      * eapply ordered_weaken; [|apply (IH 0 (S p) E')]. lia.
    + replace (p + S skip) with (S p + skip) by lia. apply IH; exact E'.
Qed.

End Scans.

(** ** The extractors return *)

Section Extractors.

Context {U : Unicode}.

Lemma coordinate_match_point text m :
  coordinate_match text m -> exists p, point_of_match text m p /\
    (exists x y z, p = (x, y, z) /\
       float_group text m 1 = Ok x /\ float_group text m 2 = Ok y /\
       match group text m 3 with
       | Some ((_ :: _) as w) => float_of_str w
       | _ => Ok 0%Q
       end = Ok z).
Proof.
  intros (_ & _ & w1 & w2 & G1 & N1 & G2 & N2 & G3).
  destruct (numeral_float N1) as [x Fx], (numeral_float N2) as [y Fy].
  unfold float_group. rewrite G1, G2.
  destruct (group text m 3) as [w3|] eqn:E3.
  - destruct (numeral_float G3) as [z Fz].
    exists (x, y, z); split.
    + simpl. exists w1, w2. rewrite E3. tauto.
    + exists x, y, z; repeat split; auto.
      destruct w3; [destruct (numeral_nonempty G3); reflexivity | exact Fz].
  - exists (x, y, 0%Q); split.
    + simpl. exists w1, w2. rewrite E3. tauto.
    + exists x, y, 0%Q; auto.
Qed.

Lemma coordinates_of_total text ms :
  Forall (coordinate_match text) ms ->
  exists coordinates,
    coordinates_of text ms = Ok coordinates /\
    Forall2 (point_of_match text) ms coordinates.
Proof.
  induction 1 as [|m ms Hm _ IH]; simpl.
  - exists []; split; [reflexivity | constructor].
  - destruct IH as (cs & E & F).
    destruct (coordinate_match_point Hm) as (p & P & x & y & z & -> & Fx & Fy & Fz).
    exists ((x, y, z) :: cs); split; [|constructor; auto].
    rewrite Fx; simpl. rewrite Fy; simpl. rewrite Fz; simpl. rewrite E; reflexivity.
Qed.

Lemma finditer_coordinate text :
  Forall (coordinate_match text) (finditer false Pat.coordinate text) /\
  ordered 0 (List.length text) (finditer false Pat.coordinate text).
Proof.
  split.
  - eapply Forall_impl; [|apply (finditer_from_match text false Pat.coordinate
                                   (s := text) 0 0 eq_refl)].
    intros m [q M]. apply match_at_coordinate in M. tauto.
  - assert (Hm : forall q m,
               match_at false Pat.coordinate q (skipn q text) = Some m ->
               m_start m = q /\ q < m_end m /\ m_end m <= List.length text).
    { intros q m M. apply match_at_coordinate in M.
      destruct M as (S & L & B & _). rewrite S in L. auto. }
    exact (@finditer_from_ordered _ text false Pat.coordinate Hm text 0 0 eq_refl).
Qed.

(** [_extract_coordinates] never raises. *)
Lemma extract_coordinates_total text :
  exists coordinates,
    _extract_coordinates text = Ok coordinates /\
    Forall2 (point_of_match text) (finditer false Pat.coordinate text) coordinates.
Proof. apply coordinates_of_total, finditer_coordinate. Qed.

End Extractors.

(** ** Labelled numbers *)

Section Labelled.

Context {U : Unicode}.

Lemma plain_lit s : plain (lit s) = true.
Proof.
  induction s as [|x s IH]; [reflexivity|].
  destruct s; [reflexivity|]. simpl in *. exact IH.
Qed.

Lemma plain_alts rs : forallb plain rs = true -> plain (alts rs) = true.
Proof.
  induction rs as [|r rs IH]; [reflexivity|]. simpl; intros H.
  apply andb_true_iff in H; destruct H as [Hr Hrs].
  destruct rs; [exact Hr|]. simpl in *. rewrite Hr. apply IH; exact Hrs.
Qed.

Lemma plain_labels (labels : list string) :
  plain (alts (map (fun l => lit (u l)) labels)) = true.
Proof.
  apply plain_alts. induction labels; simpl; [reflexivity|].
  rewrite plain_lit; auto.
Qed.

(** Group 1 of a match of a labelled pattern is a number. *)
Lemma match_at_labelled text ic (signed : bool) (labels : list string) q m :
  match_at ic (if signed then Pat.labelled labels else Pat.labelled_unsigned labels)
           q (skipn q text) = Some m ->
  exists w, group text m 1 = Some w /\ numeral true w.
Proof.
  unfold match_at.
  destruct (exec ic _ (MState q (skipn q text) []) Some) as [res|] eqn:E;
    [|discriminate].
  intros M; injection M as <-.
  apply exec_sound in E. destruct E as (st' & R & K). injection K as ->.
  assert (A0 : aligned text (MState q (skipn q text) [])) by reflexivity.
  assert (H : exists sb, aligned text sb /\
                run ic (if signed then Pat.number 1 else Pat.unsigned 1) sb res).
  { destruct signed; unfold Pat.labelled, Pat.labelled_unsigned in R;
      apply run_cat_inv in R; destruct R as (sa & Ra & R);
      destruct (run_plain_reads Ra (plain_labels labels) A0) as (Aa & _ & _);
      apply run_cat_inv in R; destruct R as (sb & Rb & R);
      destruct (run_plain_reads Rb eq_refl Aa) as (Ab & _ & _);
      exists sb; auto. }
  destruct H as (sb & Ab & R').
  assert (H : exists w, reads w sb res /\ numeral true w /\
                        caps res = (1, (pos sb, pos res)) :: caps sb).
  { destruct signed; [apply (run_number R')|].
    apply run_unsigned in R'. destruct R' as (w & Rw & Nw & C).
    exists w; split; [|split]; auto using numeral_signed. }
  destruct H as (w & Rw & Nw & C).
  destruct (aligned_reads Ab Rw) as (_ & S & _).
  exists w; split; [|exact Nw].
  unfold group; simpl. rewrite C; simpl. rewrite S; reflexivity.
Qed.

(** A labelled number never makes [float] raise. *)
Lemma float_param_total ic (signed : bool) (labels : list string) command default :
  exists q,
    float_param ic (if signed then Pat.labelled labels else Pat.labelled_unsigned labels)
                command default = Ok q.
Proof.
  unfold float_param.
  destruct (search ic _ command) as [m|] eqn:S; [|eauto].
  apply search_match in S. destruct S as [q M].
  apply match_at_labelled in M. destruct M as (w & G & Nw).
  unfold float_group; rewrite G. eapply numeral_float; eauto.
Qed.

End Labelled.

(** ** The classifier *)

Section Classifier.

Context {U : Unicode}.

Lemma draw_intent_range shape_type intent :
  draw_intent shape_type = Some intent -> In intent intents.
Proof.
  unfold draw_intent, intents.
  repeat match goal with
         | |- context [if ?b then _ else _] => destruct b
         end;
    intros E; try discriminate; injection E as <-; simpl; tauto.
Qed.

Lemma intents_not_save intent : In intent intents -> intent <> u "save".
Proof.
  unfold intents; simpl; intros H E; subst intent.
  repeat (destruct H as [H|H]; [vm_compute in H; discriminate|]).
  exact H.
Qed.

Lemma scan_shapes_other shapes action_type command :
  Str.eqb action_type (u "draw") = false ->
  scan_shapes shapes action_type command = None.
Proof.
  intros E; induction shapes as [|[shape shape_type] shapes IH]; simpl;
    [reflexivity|].
  rewrite E, IH. destruct (contains shape command); reflexivity.
Qed.

(** Under a draw action the shape loop returns at the first shape word of
    the table that occurs in the command and has a branch. *)
Lemma scan_shapes_draw shapes command shape shape_type intent :
  In (shape, shape_type) shapes ->
  contains shape command = true ->
  draw_intent shape_type = Some intent ->
  exists before shape' shape_type' after intent',
    shapes = before ++ (shape', shape_type') :: after /\
    contains shape' command = true /\
    draw_intent shape_type' = Some intent' /\
    (forall s t, In (s, t) before -> contains s command = true ->
                 draw_intent t = None) /\
    scan_shapes shapes (u "draw") command = Some intent'.
Proof.
  induction shapes as [|[s0 t0] shapes IH]; intros HIn Hc Hd; [destruct HIn|].
  assert (Hdraw : Str.eqb (u "draw") (u "draw") = true) by reflexivity.
  destruct (contains s0 command) eqn:C0.
  - destruct (draw_intent t0) as [i0|] eqn:D0.
    + exists [], s0, t0, shapes, i0. simpl.
      rewrite C0, D0. repeat split; auto. intros s t [].
    + destruct HIn as [E|HIn]; [inversion E; subst; congruence|].
      destruct (IH HIn Hc Hd) as (b & s' & t' & a & i' & E & C & D & F & R).
      exists ((s0, t0) :: b), s', t', a, i'. simpl.
      rewrite C0, D0, E. repeat split; auto.
      * intros s t [H|H] Hs; [inversion H; subst; exact D0 | eauto].
      * rewrite <- E; exact R.
  - destruct HIn as [E|HIn]; [inversion E; subst; congruence|].
    destruct (IH HIn Hc Hd) as (b & s' & t' & a & i' & E & C & D & F & R).
    exists ((s0, t0) :: b), s', t', a, i'. simpl.
    rewrite C0, E. repeat split; auto.
    * intros s t [H|H] Hs; [inversion H; subst; congruence | eauto].
    * rewrite <- E; exact R.
Qed.

Lemma scan_actions_draw actions shapes command action intent :
  In (action, u "draw") actions ->
  contains action command = true ->
  scan_shapes shapes (u "draw") command = Some intent ->
  scan_actions actions shapes command = Some intent.
Proof.
  intros HIn Hc Hs.
  induction actions as [|[a0 t0] actions IH]; [destruct HIn|]. simpl.
  destruct (contains a0 command) eqn:C0.
  - destruct (Str.eqb t0 (u "draw")) eqn:E0.
    + apply eqb_eq in E0; subst t0. rewrite Hs; reflexivity.
    + rewrite scan_shapes_other by exact E0.
      destruct HIn as [E|HIn]; [|auto].
      inversion E; subst. rewrite eqb_refl in E0; discriminate.
  - destruct HIn as [E|HIn]; [inversion E; subst; congruence | auto].
Qed.

(** What the keyword rules can answer. *)
Lemma identify_by_keywords_range self command :
  In (identify_by_keywords self command)
     (intents ++ [u "create_layer"; u "save"; u "unknown"]).
Proof.
  unfold identify_by_keywords.
  destruct (scan_actions _ _ _) as [intent|] eqn:S.
  - apply in_or_app; left.
    revert S. generalize (action_keywords self) as actions.
    induction actions as [|[a t] actions IH]; simpl; [discriminate|].
    assert (H : forall shapes, scan_shapes shapes t command = Some intent ->
                               In intent intents).
    { induction shapes as [|[s st] shapes IHs]; simpl; [discriminate|].
      destruct (contains s command); auto.
      destruct (Str.eqb t (u "draw")); auto.
      destruct (draw_intent st) eqn:D; auto.
      intros E; injection E as <-. eapply draw_intent_range; eauto. }
    destruct (contains a command); auto.
    destruct (scan_shapes (shape_keywords self) t command) eqn:Ss; auto.
    intros E; injection E as <-. eapply H; eauto.
  - unfold intents.
    repeat match goal with
           | |- context [if ?b then _ else _] => destruct b
           end; simpl; auto 20.
Qed.

End Classifier.

(** ** With the domain table, every call returns *)

Section Returns.

Context {U : Unicode}.

Variable config : Config.

Lemma match_at_number text ic q m :
  match_at ic (Pat.number 1) q (skipn q text) = Some m ->
  exists w, group text m 1 = Some w /\ numeral true w.
Proof.
  unfold match_at.
  destruct (exec ic _ (MState q (skipn q text) []) Some) as [res|] eqn:E;
    [|discriminate].
  intros M; injection M as <-.
  apply exec_sound in E. destruct E as (st' & R & K). injection K as ->.
  assert (A0 : aligned text (MState q (skipn q text) [])) by reflexivity.
  destruct (run_number_aligned R A0) as (_ & _ & Nw & C).
  eexists; split; [|exact Nw].
  unfold group; simpl. rewrite C; reflexivity.
Qed.

Lemma floats_of_total ws :
  Forall (numeral true) ws -> exists xs, floats_of ws = Ok xs.
Proof.
  induction 1 as [|w ws Hw _ [xs IH]]; simpl; [eauto|].
  destruct (numeral_float Hw) as [x Fx]. rewrite Fx; simpl. rewrite IH; simpl. eauto.
Qed.

(** [_extract_numbers] never raises. *)
Lemma extract_numbers_total text : exists numbers, _extract_numbers text = Ok numbers.
Proof.
  apply floats_of_total. unfold findall. apply Forall_map.
  eapply Forall_impl;
    [|apply (finditer_from_match text false (Pat.number 1) (s := text) 0 0 eq_refl)].
  intros m [q M]. apply match_at_number in M. destruct M as (w & -> & Nw). exact Nw.
Qed.

Lemma radius_of_total command numbers : exists q, radius_of command numbers = Ok q.
Proof.
  unfold radius_of.
  destruct (search true _ command) as [m|] eqn:S.
  - apply search_match in S. destruct S as [q M].
    apply (@match_at_labelled _ command true true) in M.
    destruct M as (w & G & Nw).
    unfold float_group; rewrite G. eapply numeral_float; eauto.
  - destruct numbers; eauto.
Qed.

(** Runs the leading extractor calls of a builder. *)
Ltac returns :=
  repeat match goal with
    | |- context [_extract_coordinates ?c] =>
        let cs := fresh "coordinates" in
        let E := fresh "E" in
        destruct (extract_coordinates_total c) as (cs & E & _);
        rewrite E; cbn [bind]
    | |- context [_extract_numbers ?c] =>
        let ns := fresh "numbers" in
        let E := fresh "E" in
        destruct (extract_numbers_total c) as (ns & E);
        rewrite E; cbn [bind]
    | |- context [radius_of ?c ?ns] =>
        let q := fresh "radius" in
        let E := fresh "E" in
        destruct (radius_of_total c ns) as (q & E);
        rewrite E; cbn [bind]
    | |- context [float_param ?ic (Pat.labelled ?ls) ?c ?d] =>
        let q := fresh "q" in
        let E := fresh "E" in
        destruct (float_param_total ic true ls c d) as (q & E);
        cbn [andb] in E; rewrite E; cbn [bind]
    | |- context [float_param ?ic (Pat.labelled_unsigned ?ls) ?c ?d] =>
        let q := fresh "q" in
        let E := fresh "E" in
        destruct (float_param_total ic false ls c d) as (q & E);
        cbn [andb] in E; rewrite E; cbn [bind]
    | |- context [if ?b then _ else _] => destruct b
    | |- context [let '(_, _) := ?p in _] => destruct p
    end;
  eauto.

Lemma parse_draw_line_returns command : exists d, _parse_draw_line command = Ok d.
Proof. unfold _parse_draw_line. returns. Qed.

Lemma parse_draw_circle_returns command : exists d, _parse_draw_circle command = Ok d.
Proof. unfold _parse_draw_circle. returns. Qed.

Lemma parse_draw_arc_returns command : exists d, _parse_draw_arc command = Ok d.
Proof. unfold _parse_draw_arc. returns. Qed.

Lemma parse_draw_rectangle_returns command :
  exists d, _parse_draw_rectangle command = Ok d.
Proof. unfold _parse_draw_rectangle. returns. Qed.

Lemma parse_draw_polyline_returns command :
  exists d, _parse_draw_polyline command = Ok d.
Proof. unfold _parse_draw_polyline. returns. Qed.

Lemma parse_draw_text_returns command : exists d, _parse_draw_text command = Ok d.
Proof. unfold _parse_draw_text. returns. Qed.

Lemma parse_draw_hatch_returns command : exists d, _parse_draw_hatch command = Ok d.
Proof. unfold _parse_draw_hatch. returns. Qed.

Lemma parse_save_returns command : exists d, _parse_save command = Ok d.
Proof. unfold _parse_save. returns. Qed.

(** The keyword rules never answer [draw_hatch] nor [draw_wall]: the two
    branches of the dispatcher for them are dead. *)
Lemma identify_by_keywords_never_hatch self command :
  identify_by_keywords self command <> u "draw_hatch"
  /\ identify_by_keywords self command <> u "draw_wall".
Proof.
  pose proof (identify_by_keywords_range self command) as H.
  unfold intents in H; simpl in H.
  split; intros E; rewrite E in H;
    repeat (destruct H as [H|H]; [vm_compute in H; discriminate|]); exact H.
Qed.

(** On a processor that has its domain table, [parse_command] returns a
    descriptor for every command: the missing attribute is the only
    exception the method can raise. *)
Lemma parse_command_returns self table command :
  domain_keywords self = Some table ->
  exists d, parse_command config self command = Ok d.
Proof.
  intros D. unfold parse_command, _identify_command_type. rewrite D. cbn [bind].
  pose proof (identify_by_keywords_range self (strip (lower command))) as H.
  unfold intents in H; simpl in H.
  repeat (destruct H as [H|H];
          [rewrite <- H; clear H;
           first [ apply parse_draw_line_returns
                 | apply parse_draw_circle_returns
                 | apply parse_draw_arc_returns
                 | apply parse_draw_rectangle_returns
                 | apply parse_draw_polyline_returns
                 | apply parse_draw_text_returns
                 | apply parse_save_returns
                 | eexists; reflexivity ]|]).
  destruct H.
Qed.

End Returns.

(** ** The colour table *)

Section Colors.

#[local] Existing Instance Basic.unicode.

Lemma occurs_drop (pre w s : str) : occurs (pre ++ w) s -> occurs w s.
Proof.
  intros (a & b & ->). exists (a ++ pre), b.
  rewrite <- !app_assoc. reflexivity.
Qed.

Lemma occurs_slice (s : str) (a b : nat) : occurs (slice s a b) s.
Proof.
  unfold slice. exists (firstn a s), (skipn (b - a) (skipn a s)).
  rewrite firstn_skipn, firstn_skipn. reflexivity.
Qed.

(** The name loop returns nothing only if no key of the table occurs. *)
Lemma color_by_name_none table command color_name index :
  color_by_name table command = None ->
  In (color_name, index) table ->
  contains (lower color_name) command = false.
Proof.
  induction table as [|[k i] table IH]; cbn [color_by_name In]; [tauto|].
  destruct (contains (lower k) command) eqn:E; intros N; [discriminate N|].
  intros [H|H]; [injection H as <- <-; exact E | auto].
Qed.

Lemma color_lookup_in table key index :
  color_lookup table key = Some index -> In (key, index) table.
Proof.
  induction table as [|[k i] table IH]; simpl; [intros H; discriminate H|].
  destruct (Str.eqb k key) eqn:E.
  - apply eqb_eq in E. intros H; injection H as <-. left; congruence.
  - auto.
Qed.

(** Every candidate of the second loop is a piece of the command. *)
Lemma findall_occurs ic r text w :
  In w (findall ic r text) -> w = [] \/ occurs w text.
Proof.
  unfold findall. rewrite in_map_iff. intros (m & <- & _).
  unfold group. destruct (assoc 1 (m_caps m)) as [[a b]|]; [right|left; reflexivity].
  apply occurs_slice.
Qed.

Lemma color_by_match_in table color_matches index :
  color_by_match table color_matches = Some index ->
  exists w, In w color_matches /\ color_lookup table w = Some index.
Proof.
  induction color_matches as [|w ws IH]; simpl; [intros H; discriminate H|].
  destruct (color_lookup table w) as [i|] eqn:E.
  - intros H; injection H as <-. eauto.
  - intros H. destruct (IH H) as (w' & I & L). eauto.
Qed.

(** A lower-cased command holds no capital letter. *)
Lemma lower_no_capital (command : str) (x : N) :
  In x (lower command) -> Basic.between 65 90 x = false.
Proof.
  cbn [lower Basic.unicode]. rewrite in_map_iff. intros (y & <- & _).
  unfold Basic.lower1, Basic.between.
  destruct (65 <=? y)%N eqn:A, (y <=? 90)%N eqn:B; cbn [andb];
    try (rewrite A, B; reflexivity).
  apply N.leb_le in A, B.
  assert (H : (y + 32 <=? 90)%N = false) by (apply N.leb_gt; lia).
  rewrite H. apply andb_false_r.
Qed.

(** In the name loop the key 浅灰色 is never the first to occur, nor is
    Light Gray: no command gets the index 9 from its words. *)
Lemma color_by_name_never_light_gray (command : str) :
  color_by_name (color_rgb_map __init__) command <> Some 9%Z.
Proof.
  unfold __init__; cbn [color_rgb_map color_by_name].
  repeat match goal with
    | |- (if ?b then _ else _) <> _ => destruct b eqn:?; [try discriminate|]
    end; try discriminate.
  - exfalso.
    match goal with
    | H : contains (lower (u "浅灰色")) command = true,
      G : contains (lower (u "灰色")) command = false |- _ =>
        change (lower (u "浅灰色")) with (u "浅" ++ lower (u "灰色")) in H;
        apply contains_spec, occurs_drop, contains_spec in H; congruence
    end.
  - exfalso.
    match goal with
    | H : contains (lower (u "Light Gray")) command = true,
      G : contains (lower (u "Gray")) command = false |- _ =>
        change (lower (u "Light Gray")) with (u "light " ++ lower (u "Gray")) in H;
        apply contains_spec, occurs_drop, contains_spec in H; congruence
    end.
Qed.

(** A command that holds 洋红色 is stopped at 红色 by the name loop. *)
Lemma color_by_name_magenta_is_red (command : str) :
  occurs (u "洋红色") command ->
  color_by_name (color_rgb_map __init__) command = Some 1%Z.
Proof.
  intros H. change (u "洋红色") with (u "洋" ++ lower (u "红色")) in H.
  apply occurs_drop, contains_spec in H.
  unfold __init__; cbn [color_rgb_map color_by_name]. rewrite H. reflexivity.
Qed.

(** Neither loop of [extract_color_from_command] gives the index 9. *)
Lemma words_never_light_gray (command : str) :
  match color_by_name (color_rgb_map __init__) (lower command) with
  | Some index => index
  | None =>
      match color_by_match (color_rgb_map __init__)
              (findall false Pat.color (lower command)) with
      | Some index => index
      | None => 7%Z
      end
  end <> 9%Z.
Proof.
  destruct (color_by_name _ (lower command)) as [index|] eqn:N.
  - intros ->. exact (color_by_name_never_light_gray _ N).
  - destruct (color_by_match _ _) as [index|] eqn:M; [|discriminate].
    intros ->.
    apply color_by_match_in in M. destruct M as (w & I & L).
    apply color_lookup_in in L. apply findall_occurs in I.
    unfold __init__ in L; cbn [color_rgb_map In] in L.
    repeat (destruct L as [L|L]; [try discriminate L|]); [| |exact L].
    + injection L as <-.
      destruct I as [I|I]; [discriminate I|].
      apply contains_spec in I.
      assert (K : In (u "浅灰色", 9%Z) (color_rgb_map __init__))
        by (cbn; auto 20).
      eapply color_by_name_none in K; [|exact N].
      change (lower (u "浅灰色")) with (u "浅灰色") in K. congruence.
    + injection L as <-.
      destruct I as [I|I]; [discriminate I|].
      destruct I as (a & b & I).
      assert (K : In 76%N (lower command))
        by (rewrite I; apply in_or_app; right; left; reflexivity).
      apply lower_no_capital in K. discriminate K.
Qed.

(** The index 9 of 浅灰色 and Light Gray is returned for the number 9
    only. *)
Lemma light_gray_is_unreachable (command : str) :
  extract_color_from_command __init__ (Some command) = 9%Z ->
  int_of_str command = Some 9%Z.
Proof.
  unfold extract_color_from_command.
  destruct (int_of_str command) as [num|].
  - destruct ((1 <=? num) && (num <=? 255))%Z.
    + congruence.
    + intros H. destruct (words_never_light_gray _ H).
  - intros H. destruct (words_never_light_gray _ H).
Qed.

End Colors.

(** * The claims *)

(** ** Claims that hold for every instance of the Unicode tables *)

(** C1: for every input string [process_command] completes without raising
    and returns a descriptor.  The code does the opposite: the first
    statement of [_identify_command_type] reads [self.domain_keywords],
    which [__init__] does not assign, so on a processor as constructed every
    call raises [AttributeError], whatever the command. *)
Theorem process_command_raises (U : Unicode) (config : Config) (command : str) :
  process_command config __init__ command = Raise (AttributeError "domain_keywords")
  /\ parse_command config __init__ command = Raise (AttributeError "domain_keywords")
  /\ _identify_command_type __init__ (strip (lower command))
     = Raise (AttributeError "domain_keywords").
Proof. repeat split. Qed.

(** C3: the builder dispatched for [create_layer] returns a [create_layer]
    descriptor with a layer name and a colour.  The code does not: the
    method named [_parse_create_layer] holds the body of the save parser,
    so for every command its result has type [save] and a [file_path], and
    neither [layer_name] nor [color]. *)
Theorem create_layer_builds_save (U : Unicode) (config : Config) (command : str) :
  dispatch config (u "create_layer") command = _parse_create_layer config command
  /\ exists file_path,
       _parse_create_layer config command
       = Ok [ ("type", VStr (u "save")); ("file_path", VStr file_path) ]%string
       /\ (search true Pat.path command = None ->
           file_path = path_join (output_directory config)
                                 (output_default_filename config)).
Proof.
  split; [reflexivity|].
  unfold _parse_create_layer.
  destruct (search true Pat.path command); eexists; split;
    try reflexivity; intros; congruence.
Qed.

(** C5: [_parse_draw_hatch] returns the error descriptor with the message
    绘制填充需要至少3个点来定义边界 if and only if fewer than three coordinates
    are extracted from the command; with three or more it returns a
    [draw_hatch] descriptor whose points are all the extracted coordinates.
    It never raises. *)
Theorem draw_hatch_needs_three_points (U : Unicode) (command : str) :
  exists coordinates,
    _extract_coordinates command = Ok coordinates
    /\ (_parse_draw_hatch command
        = Ok [ ("type", VStr (u "error"));
               ("message", VStr (u "绘制填充需要至少3个点来定义边界")) ]%string
        <-> List.length coordinates < 3)
    /\ ((List.length coordinates < 3
         /\ _parse_draw_hatch command
            = Ok [ ("type", VStr (u "error"));
                   ("message", VStr (u "绘制填充需要至少3个点来定义边界")) ]%string)
        \/ (3 <= List.length coordinates
            /\ exists pattern_name scale,
                 _parse_draw_hatch command
                 = Ok [ ("type", VStr (u "draw_hatch"));
                        ("points", VPoints coordinates);
                        ("pattern_name", VStr pattern_name);
                        ("scale", VNum scale) ]%string)).
Proof.
  destruct (extract_coordinates_total command) as (coordinates & E & _).
  exists coordinates; split; [exact E|].
  unfold _parse_draw_hatch. rewrite E; cbn [bind].
  destruct (float_param_total true false ["比例"; "缩放"; "scale"]%string command 1%Q)
    as [scale S].
  cbn [andb] in S. rewrite S; cbn [bind].
  destruct (Nat.leb 3 (List.length coordinates)) eqn:L.
  - apply Nat.leb_le in L. split.
    + split; [intros H; vm_compute in H; discriminate | lia].
    + right; split; [exact L | eauto].
  - apply Nat.leb_gt in L. split.
    + split; [intros _; exact L | reflexivity].
    + left; split; [exact L | reflexivity].
Qed.

(** C6: [_parse_draw_polyline] returns the error descriptor with the
    message 绘制多段线需要至少两个坐标点 if and only if fewer than two coordinates
    are extracted; otherwise it returns a [draw_polyline] descriptor whose
    points are all the extracted coordinates, in their order, and whose
    [closed] flag is true exactly when 闭合 or 封闭 occurs in the command. *)
Theorem draw_polyline_needs_two_points (U : Unicode) (command : str) :
  exists coordinates,
    _extract_coordinates command = Ok coordinates
    /\ (_parse_draw_polyline command
        = Ok [ ("type", VStr (u "error"));
               ("message", VStr (u "绘制多段线需要至少两个坐标点")) ]%string
        <-> List.length coordinates < 2)
    /\ ((List.length coordinates < 2
         /\ _parse_draw_polyline command
            = Ok [ ("type", VStr (u "error"));
                   ("message", VStr (u "绘制多段线需要至少两个坐标点")) ]%string)
        \/ (2 <= List.length coordinates
            /\ exists closed,
                 _parse_draw_polyline command
                 = Ok [ ("type", VStr (u "draw_polyline"));
                        ("points", VPoints coordinates);
                        ("closed", VBool closed) ]%string
                 /\ (closed = true <->
                     occurs (u "闭合") command \/ occurs (u "封闭") command))).
Proof.
  destruct (extract_coordinates_total command) as (coordinates & E & _).
  exists coordinates; split; [exact E|].
  unfold _parse_draw_polyline. rewrite E; cbn [bind].
  destruct (Nat.leb 2 (List.length coordinates)) eqn:L.
  - apply Nat.leb_le in L. split.
    + split; [intros H; vm_compute in H; discriminate | lia].
    + right; split; [exact L|]. eexists; split; [reflexivity|].
      rewrite orb_true_iff, !contains_spec; reflexivity.
  - apply Nat.leb_gt in L. split.
    + split; [intros _; exact L | reflexivity].
    + left; split; [exact L | reflexivity].
Qed.


(** C10: a command with 标注 and no draw pair is to be classified
    [add_dimension] and, the dispatcher having no builder for that intent,
    answered with the [unknown] descriptor.  The dispatcher indeed has no
    such builder, and the keyword rules would answer [add_dimension] for
    标注; but the classifier never returns that intent, nor any other: it
    raises at its first statement, [parse_command] raises with it, and no
    command is answered with the [unknown] descriptor. *)
Theorem add_dimension_command_raises (U : Unicode) (config : Config) (command : str) :
  dispatch config (u "add_dimension") command
  = Ok [ ("type", VStr (u "unknown"));
         ("error", VStr (u "无法识别的命令类型"));
         ("original_command", VStr command) ]%string
  /\ identify_by_keywords __init__ (u "标注") = u "add_dimension"
  /\ _identify_command_type __init__ (u "标注")
     = Raise (AttributeError "domain_keywords")
  /\ parse_command config __init__ (u "标注")
     = Raise (AttributeError "domain_keywords")
  /\ _identify_command_type __init__ command <> Ok (u "add_dimension")
  /\ parse_command config __init__ command
     <> Ok [ ("type", VStr (u "unknown"));
             ("error", VStr (u "无法识别的命令类型"));
             ("original_command", VStr (strip (lower command))) ]%string.
Proof.
  split; [reflexivity|]. split; [vm_compute; reflexivity|].
  split; [reflexivity|]. split; [reflexivity|].
  split; intros H; discriminate H.
Qed.

(** ** Claims settled by running the code *)

Section Runs.

#[local] Existing Instance Basic.unicode.

(** Sample runs of the extractors: brackets are optional, blanks may
    surround the numbers and the commas, a pair is lifted with z = 0. *)
Example extract_coordinates_sample :
  _extract_coordinates (u "(1.5,-2) 3 , 4.25,5 (7,8")
  = Ok [ (3 # 2, -2, 0); (3, 17 # 4, 5); (7, 8, 0) ]%Q.
Proof. vm_compute. reflexivity. Qed.

Example extract_numbers_sample :
  _extract_numbers (u "r=5 -3.5 abc 7.") = Ok [ 5; -7 # 2; 7 ]%Q.
Proof. vm_compute. reflexivity. Qed.

(** The shape table has 线 before 多段线 and 圆 before 圆弧: with the draw
    word, a polyline command is a line and an arc command a circle. *)
Example polyline_word_is_a_line :
  identify_by_keywords __init__ (u "画多段线 (0,0) (1,1) 闭合") = u "draw_line"
  /\ identify_by_keywords __init__ (u "画圆弧 (0,0) 半径 5") = u "draw_circle".
Proof. vm_compute. split; reflexivity. Qed.

(** C8: a command with a draw word, a shape word of the pairs the
    classifier knows and 保存 is to be classified by the pair, never as
    [save].  画圆 保存 holds the draw word 画, the shape word 圆 and 保存, and
    the keyword rules would answer [draw_circle]; the classifier does not
    get that far: it raises at its first statement and returns no intent,
    for this command as for any other. *)
Theorem draw_pair_with_save_raises :
  In (u "画", u "draw") (action_keywords __init__)
  /\ In (u "圆", u "circle") (shape_keywords __init__)
  /\ contains (u "画") (u "画圆 保存") = true
  /\ contains (u "圆") (u "画圆 保存") = true
  /\ contains (u "保存") (u "画圆 保存") = true
  /\ identify_by_keywords __init__ (u "画圆 保存") = u "draw_circle"
  /\ _identify_command_type __init__ (u "画圆 保存")
     = Raise (AttributeError "domain_keywords")
  /\ (forall command intent, _identify_command_type __init__ command <> Ok intent).
Proof.
  vm_compute. repeat split; auto 20; intros; discriminate.
Qed.

(** C2: 保存 is to give the save descriptor with the path out/drawing.dwg.
    The code gives no such thing: on a processor as constructed the call
    raises; with the domain table restored the command is classified
    [save] and dispatched to [_parse_save], which holds the body of the
    wall parser and answers with its error.  The save parser is reachable
    only under the name [_parse_create_layer]. *)
Theorem save_command_is_not_saved :
  parse_command example_config __init__ (u "保存")
  = Raise (AttributeError "domain_keywords")
  /\ identify_by_keywords __init__ (u "保存") = u "save"
  /\ parse_command example_config restored (u "保存")
     = Ok [ ("type", VStr (u "error"));
            ("message", VStr (u "绘制墙体需要提供起点和终点坐标")) ]%string
  /\ _parse_save (u "保存")
     = Ok [ ("type", VStr (u "error"));
            ("message", VStr (u "绘制墙体需要提供起点和终点坐标")) ]%string
  /\ _parse_create_layer example_config (u "保存")
     = Ok [ ("type", VStr (u "save"));
            ("file_path", VStr (u "out/drawing.dwg")) ]%string.
Proof. vm_compute. repeat split. Qed.

(** The failing input of C3: a layer command is classified
    [create_layer] and answered with a save descriptor. *)
Lemma create_layer_command_is_saved :
  identify_by_keywords __init__ (u "创建图层 名称'墙体' 红色") = u "create_layer"
  /\ parse_command example_config restored (u "创建图层 名称'墙体' 红色")
     = Ok [ ("type", VStr (u "save"));
            ("file_path", VStr (u "out/drawing.dwg")) ]%string.
Proof. vm_compute. repeat split. Qed.

(** C4: 画填充 (0,0) (10,0) (10,10) is to give the hatch descriptor.  The
    code gives none: on a processor as constructed the call raises, and
    with the domain table restored the command is classified [unknown],
    because no rule of the classifier returns [draw_hatch]; the builder,
    called directly, would give the descriptor of the claim. *)
Theorem hatch_command_is_unknown :
  parse_command example_config __init__ (u "画填充 (0,0) (10,0) (10,10)")
  = Raise (AttributeError "domain_keywords")
  /\ identify_by_keywords __init__ (u "画填充 (0,0) (10,0) (10,10)") = u "unknown"
  /\ parse_command example_config restored (u "画填充 (0,0) (10,0) (10,10)")
     = Ok [ ("type", VStr (u "unknown"));
            ("error", VStr (u "无法识别的命令类型"));
            ("original_command", VStr (u "画填充 (0,0) (10,0) (10,10)")) ]%string
  /\ _parse_draw_hatch (u "画填充 (0,0) (10,0) (10,10)")
     = Ok [ ("type", VStr (u "draw_hatch"));
            ("points", VPoints [ (0, 0, 0); (10, 0, 0); (10, 10, 0) ]%Q);
            ("pattern_name", VStr (u "SOLID"));
            ("scale", VNum 1%Q) ]%string.
Proof. vm_compute. repeat split. Qed.

(** C9: the colour table is to put the longer of two names first, so
    that 洋红色 and 浅灰色 resolve to their own indices.  It does not: 红色
    comes before 洋红色 and 灰色 before 浅灰色, so the scan stops at the
    shorter name and returns 1 and 8 where the table maps the longer
    names to 6 and 9; the same happens to Light Gray. *)
Theorem longer_color_names_are_shadowed :
  extract_color_from_command __init__ (Some (u "洋红色")) = 1%Z
  /\ color_lookup (color_rgb_map __init__) (u "洋红色") = Some 6%Z
  /\ extract_color_from_command __init__ (Some (u "浅灰色")) = 8%Z
  /\ color_lookup (color_rgb_map __init__) (u "浅灰色") = Some 9%Z
  /\ extract_color_from_command __init__ (Some (u "Light Gray")) = 8%Z
  /\ color_lookup (color_rgb_map __init__) (u "Light Gray") = Some 9%Z.
Proof. vm_compute. repeat split. Qed.

End Runs.
